(** * toruslang: Q4.4 codec, bytecode VM and hash-gated micro-JIT

    A shallow embedding of [src/torusLang.c] (sections 1 to 5 of that
    file: arena, ledger, number format, bytecode VM, micro-JIT) and the
    properties of it that the specification states.

    Conventions.
    - C integers are [Z] with the wrap-around of their width written out
      ([u8], [s8], [wrap32], [wrap64]).
    - [double] is Rocq's primitive binary64 [float]; the conversion
      [double -> int16_t] truncates toward zero and is undefined outside
      the target range, which the model renders as [None].
    - The global variables [arena], [last_line], [ledger], [stack] and
      [sp] are the fields of one record [machine], passed explicitly.
    - A C string is a [string] read up to its first NUL byte (or its end,
      where the terminating NUL of the array sits). *)

From Stdlib Require Import ZArith List String Ascii Bool Lia Floats Uint63.
From stdpp Require Import base list.
From Equations Require Import Equations.
From Equations.Prop Require Import Logic.
Import ListNotations.

#[local] Open Scope Z_scope.

(* ===================================================================== *)
(** ** 0. Machine integers                                                *)
(* ===================================================================== *)

Module CInt.

(** [(uint8_t) x] *)
Definition u8 (x : Z) : Z := x mod 256.

(** [(int8_t) x]: the low byte read as two's complement. *)
Definition s8 (x : Z) : Z :=
  let r := x mod 256 in if r <? 128 then r else r - 256.

(** [(uint32_t) x] and [(uint64_t) x] *)
Definition wrap32 (x : Z) : Z := x mod 2 ^ 32.
Definition wrap64 (x : Z) : Z := x mod 2 ^ 64.

(** [(int16_t) x] *)
Definition s16 (x : Z) : Z :=
  let r := x mod 65536 in if r <? 32768 then r else r - 65536.

Definition in_int16 (x : Z) : bool := (-32768 <=? x) && (x <=? 32767).

(** The two-sided clamp shared by [encode8] and [add8]:
    [if(q>127) q=127; else if(q<-128) q=-128;] *)
Definition clamp8 (q : Z) : Z :=
  if q >? 127 then 127 else if q <? -128 then -128 else q.

End CInt.
Import CInt.

(* ===================================================================== *)
(** ** 3. Number format (Q4.4 fixed)                                      *)
(* ===================================================================== *)

Module Codec.

(** [(int16_t) d] for a [double d]: the fractional part is discarded
    (truncation toward zero); not-a-number, infinities and values whose
    integer part does not fit the target have no defined result. *)
Definition double_trunc (d : float) : option Z :=
  match Prim2SF d with
  | S754_zero _ => Some 0
  | S754_finite s m e =>
      let mag := match e with
                 | Z0 => Zpos m
                 | Zpos k => Zpos m * 2 ^ Zpos k
                 | Zneg k => Zpos m / 2 ^ Zpos k
                 end in
      Some (if s then - mag else mag)
  | S754_infinity _ | S754_nan => None
  end.

Definition double_to_int16 (d : float) : option Z :=
  match double_trunc d with
  | Some t => if in_int16 t then Some t else None
  | None => None
  end.

(** The integer-to-double conversion of [((int8_t)p)/16.0]; exact for
    every [|z| < 2^53]. *)
Definition int_to_double (z : Z) : float :=
  if z <? 0 then PrimFloat.opp (PrimFloat.of_uint63 (Uint63.of_Z (- z)))
  else PrimFloat.of_uint63 (Uint63.of_Z z).

(** [[
    static inline num8_t encode8(double x){
        int16_t q = (int16_t)(x*16.0 + 0.5);
        if(q>127) q=127; else if(q<-128) q=-128;
        return (uint8_t)(int8_t)q;
    }
    ]] *)
Definition encode8 (x : float) : option Z :=
  match double_to_int16 (x * 16 + 0.5)%float with
  | Some q => Some (u8 (s8 (clamp8 q)))
  | None => None
  end.

(** [static inline double decode8(num8_t p){ return ((int8_t)p)/16.0; }] *)
Definition decode8 (p : Z) : float :=
  (int_to_double (s8 p) / 16)%float.

(** The multiple [k/16] of the resolution, as a double. *)
Definition sixteenth (k : Z) : float := (int_to_double k / 16)%float.

(** [decode8(encode8(x)) == x], with C's [==] on doubles. *)
Definition roundtrip_ok (x : float) : bool :=
  match encode8 x with
  | Some p => (decode8 p =? x)%float
  | None => false
  end.

End Codec.
Import Codec.

(* ===================================================================== *)
(** ** 1-2. Arena and ledger                                              *)
(* ===================================================================== *)

Definition BUF_LINES : Z := 1024.
Definition LINE_SZ : Z := 256.

(** [sizeof(L->bc)] and the depth of [stack] *)
Definition BC_SZ : Z := 128.
Definition STACK_SZ : Z := 256.

(** [[
    typedef struct {
        char     text[LINE_SZ];
        uint32_t hash;
        uint8_t  bc[128];
        uint8_t  bc_len;
    } line_t;
    ]] *)
Record line_t : Type := mk_line {
  text : string;
  hash : Z;
  bc : list Z;
  bc_len : Z
}.

(** [typedef struct { uint64_t landauer; } ledger_t;] *)
Record ledger_t : Type := mk_ledger { landauer : Z }.

(** The global variables of the program. *)
Record machine : Type := mk_machine {
  arena : list line_t;
  last_line : Z;
  ledger : ledger_t;
  stack : list Z;
  sp : Z
}.

Definition set_text (L : line_t) (t : string) : line_t :=
  mk_line t (hash L) (bc L) (bc_len L).
Definition set_hash (L : line_t) (h : Z) : line_t :=
  mk_line (text L) h (bc L) (bc_len L).
Definition set_bc_len (L : line_t) (n : Z) : line_t :=
  mk_line (text L) (hash L) (bc L) n.

Definition set_arena (m : machine) (a : list line_t) : machine :=
  mk_machine a (last_line m) (ledger m) (stack m) (sp m).
Definition set_last_line (m : machine) (n : Z) : machine :=
  mk_machine (arena m) n (ledger m) (stack m) (sp m).
Definition set_ledger (m : machine) (l : ledger_t) : machine :=
  mk_machine (arena m) (last_line m) l (stack m) (sp m).
Definition set_sp (m : machine) (n : Z) : machine :=
  mk_machine (arena m) (last_line m) (ledger m) (stack m) n.
Definition set_stack (m : machine) (s : list Z) : machine :=
  mk_machine (arena m) (last_line m) (ledger m) s (sp m).

(** Static storage is zero-initialised. *)
Definition blank_line : line_t :=
  mk_line EmptyString 0 (replicate (Z.to_nat BC_SZ) 0) 0.

Definition init : machine :=
  mk_machine (replicate (Z.to_nat BUF_LINES) blank_line) 0 (mk_ledger 0)
             (replicate (Z.to_nat STACK_SZ) 0) 0.

(** [l->landauer++] on the 64-bit counter. *)
Definition ledger_tick (l : ledger_t) : ledger_t :=
  mk_ledger (wrap64 (landauer l + 1)).

(** [[
    static inline num8_t add8(num8_t a,num8_t b,ledger_t *l){
        l->landauer++;
        int16_t r = (int16_t)(int8_t)a + (int16_t)(int8_t)b;
        if(r>127) r=127; else if(r<-128) r=-128;
        return (uint8_t)(int8_t)r;
    }
    ]] *)
Definition add8 (a b : Z) (l : ledger_t) : Z * ledger_t :=
  let l' := ledger_tick l in
  let r := s16 (s16 (s8 a) + s16 (s8 b)) in
  (u8 (s8 (clamp8 r)), l').

(* ===================================================================== *)
(** ** 4. Bytecode VM                                                     *)
(* ===================================================================== *)

Definition OP_POSIT_ADD : Z := 0x01.
Definition OP_QUINE_MOMENT : Z := 0x20.
Definition OP_HALT : Z := 0xFF.

(** Array cells are read with a default and written with stdpp's insert:
    an index outside the array (undefined in C, and never produced from
    [init]) reads 0 and writes nothing. *)
Definition rd (a : list Z) (i : Z) : Z := default 0 (a !! Z.to_nat i).
Definition wr (a : list Z) (i : Z) (v : Z) : list Z := <[Z.to_nat i := v]> a.

(** [static void vm_reset(void){ sp = 0; }] *)
Definition vm_reset (m : machine) : machine := set_sp m 0.

(** [[
    static bool vm_step(uint8_t op){
        switch(op){
          case OP_POSIT_ADD:
            if(sp<2) return false;
            sp--;
            stack[sp-1] = add8(stack[sp-1],stack[sp],&ledger);
            break;
          case OP_QUINE_MOMENT:
            ledger.landauer++;
            break;
          case OP_HALT:
            return false;
          default:
            return false;
        }
        return true;
    }
    ]] *)
Definition vm_step (op : Z) (m : machine) : machine * bool :=
  if op =? OP_POSIT_ADD then
    if sp m <? 2 then (m, false)
    else
      let m1 := set_sp m (sp m - 1) in
      let '(r, l') := add8 (rd (stack m1) (sp m1 - 1)) (rd (stack m1) (sp m1))
                           (ledger m1) in
      (set_stack (set_ledger m1 l') (wr (stack m1) (sp m1 - 1) r), true)
  else if op =? OP_QUINE_MOMENT then
    (set_ledger m (ledger_tick (ledger m)), true)
  else if op =? OP_HALT then (m, false)
  else (m, false).

(** The instructions [bc[0] .. bc[bc_len-1]] that [vm_run_line] scans. *)
Definition live_code (L : line_t) : list Z := take (Z.to_nat (bc_len L)) (bc L).

(** The loop [for(...) if(!vm_step(L->bc[i])) break;] over a code list. *)
Fixpoint vm_exec (code : list Z) (m : machine) : machine :=
  match code with
  | [] => m
  | op :: rest =>
      let '(m', continue) := vm_step op m in
      if continue then vm_exec rest m' else m'
  end.

(** [[
    static void vm_run_line(const line_t *L){
        for(int i=0;i<L->bc_len;i++) if(!vm_step(L->bc[i])) break;
    }
    ]] *)
Definition vm_run_line (L : line_t) (m : machine) : machine :=
  vm_exec (live_code L) m.

(** The instructions that a run really executes, each paired with the
    state it was executed in. *)
Fixpoint vm_trace (code : list Z) (m : machine) : list (Z * machine) :=
  match code with
  | [] => []
  | op :: rest =>
      (op, m) :: (let '(m', continue) := vm_step op m in
                  if continue then vm_trace rest m' else [])
  end.

(* ===================================================================== *)
(** ** 5. Micro-JIT                                                       *)
(* ===================================================================== *)

Module CStr.

Definition NUL : ascii := Ascii.zero.

Definition is_nul (c : ascii) : bool := Ascii.eqb c NUL.

(** [(uint8_t) c] *)
Definition byte_of (c : ascii) : Z := Z.of_N (N_of_ascii c).

(** [*p]: past the end of the model string sits the terminating NUL. *)
Definition peek (p : string) : ascii :=
  match p with
  | EmptyString => NUL
  | String c _ => c
  end.

(** [p + n] *)
Fixpoint advance (n : nat) (p : string) : string :=
  match n, p with
  | O, _ => p
  | S n', String _ p' => advance n' p'
  | S _, EmptyString => EmptyString
  end.

Fixpoint strlen (s : string) : nat :=
  match s with
  | EmptyString => O
  | String c s' => if is_nul c then O else S (strlen s')
  end.

(** [strncmp(a, b, n)]: the difference of the first pair of bytes that
    differ among the first [n], comparison ending at a NUL. *)
Fixpoint strncmp (a b : string) (n : nat) : Z :=
  match n with
  | O => 0
  | S n' =>
      let ca := peek a in
      let cb := peek b in
      if negb (Ascii.eqb ca cb) then byte_of ca - byte_of cb
      else if is_nul ca then 0
      else strncmp (advance 1 a) (advance 1 b) n'
  end.

(** [[
    static void skip_space(const char **pp){
        while( **pp==' ' || **pp=='\t' ) ( *pp )++; }
    ]] *)
Fixpoint skip_space (p : string) : string :=
  match p with
  | EmptyString => p
  | String c p' =>
      if Ascii.eqb c " "%char || Ascii.eqb c "009"%char
      then skip_space p' else p
  end.

End CStr.
Import CStr.

(** [[
    static uint32_t djb_hash(const char *s,size_t len){
        uint32_t h = 5381;
        while(len--) h = ((h<<5)+h) + (uint8_t)*s++;
        return h;
    }
    ]] *)
Fixpoint djb_loop (s : string) (len : nat) (h : Z) : Z :=
  match len with
  | O => h
  | S len' =>
      djb_loop (advance 1 s) len'
        (wrap32 (wrap32 (wrap32 (Z.shiftl h 5) + h) + byte_of (peek s)))
  end.

Definition djb_hash (s : string) (len : nat) : Z := djb_loop s len 5381.

(** [[
    static void emit_byte(line_t *L,uint8_t b){
        if(L->bc_len<sizeof(L->bc)) L->bc[L->bc_len++] = b;
    }
    ]] *)
Definition emit_byte (L : line_t) (b : Z) : line_t :=
  if bc_len L <? BC_SZ
  then mk_line (text L) (hash L) (wr (bc L) (bc_len L) b) (u8 (bc_len L + 1))
  else L.

Definition kw_add : string := "add".
Definition kw_quine : string := "quine".

Lemma strncmp_0_length (p kw : string) :
  strlen kw = String.length kw ->
  strncmp p kw (String.length kw) = 0 ->
  (String.length kw <= String.length p)%nat.
Proof.
  revert p. induction kw as [|c kw IH]; intros p Hk H; simpl; [lia|].
  simpl in Hk. destruct (is_nul c) eqn:Hc; [discriminate|].
  injection Hk as Hk.
  cbn [String.length strncmp] in H.
  destruct p as [|d p]; cbn [peek advance] in H.
  - unfold is_nul in Hc. rewrite Ascii.eqb_sym in Hc.
    rewrite Hc in H. cbn [negb] in H.
    assert (byte_of c <> 0).
    { unfold byte_of. intros E.
      apply (f_equal Z.to_N) in E. rewrite N2Z.id in E. simpl in E.
      apply (f_equal ascii_of_N) in E. rewrite ascii_N_embedding in E.
      subst c. discriminate. }
    unfold byte_of at 1 in H. simpl in H. lia.
  - destruct (Ascii.eqb d c) eqn:Hdc; cbn [negb] in H.
    + apply Ascii.eqb_eq in Hdc. subst d. rewrite Hc in H.
      specialize (IH p Hk H). simpl. lia.
    + exfalso. unfold byte_of in H.
      assert (N_of_ascii d = N_of_ascii c) as E by lia.
      apply (f_equal ascii_of_N) in E. rewrite !ascii_N_embedding in E.
      subst d. rewrite Ascii.eqb_refl in Hdc. discriminate.
Qed.

Lemma skip_space_length (p : string) :
  (String.length (skip_space p) <= String.length p)%nat.
Proof.
  induction p as [|c p IH]; simpl; [lia|].
  destruct (_ || _); simpl; lia.
Qed.

Lemma advance_length (n : nat) (p : string) :
  String.length (advance n p) = (String.length p - n)%nat.
Proof.
  revert p. induction n as [|n IH]; intros [|c p]; simpl; auto.
Qed.

Lemma keyword_step (p kw : string) :
  strlen kw = String.length kw ->
  (0 < String.length kw)%nat ->
  (strncmp (skip_space p) kw (String.length kw) =? 0) = true ->
  (String.length (advance (String.length kw) (skip_space p))
   < String.length p)%nat.
Proof.
  intros Hk Hpos H. apply Z.eqb_eq in H.
  pose proof (strncmp_0_length _ _ Hk H).
  pose proof (skip_space_length p).
  rewrite advance_length. lia.
Qed.

(** The loop of [jit_line], on the remaining text [p]:
    [[
        while( *p ){
            skip_space(&p);
            if(strncmp(p,"add",3)==0){ p+=3; emit_byte(L, OP_POSIT_ADD); }
            else if(strncmp(p,"quine",5)==0){ p+=5; emit_byte(L, OP_QUINE_MOMENT); }
            else break;
        }
    ]] *)
Equations? jit_scan (p : string) (L : line_t) : line_t
  by wf (String.length p) lt :=
  jit_scan p L with is_nul (peek p) => {
    | true := L
    | false with inspect (strncmp (skip_space p) kw_add 3 =? 0) => {
        | exist _ true Hadd :=
            jit_scan (advance 3 (skip_space p)) (emit_byte L OP_POSIT_ADD)
        | exist _ false _
            with inspect (strncmp (skip_space p) kw_quine 5 =? 0) => {
            | exist _ true Hquine :=
                jit_scan (advance 5 (skip_space p))
                         (emit_byte L OP_QUINE_MOMENT)
            | exist _ false _ := L } } }.
Proof.
  - apply (keyword_step p kw_add); [reflexivity | simpl; lia | exact Hadd].
  - apply (keyword_step p kw_quine); [reflexivity | simpl; lia | exact Hquine].
Qed.

(** The body of [jit_line] on the record [L = &arena[lineno]]:
    [[
        uint32_t old = L->hash;
        L->hash = djb_hash(L->text, strlen(L->text));
        if(L->hash == old) return;
        L->bc_len = 0;
        const char *p = L->text;
        while( *p ){ ... }
    ]] *)
Definition jit_record (L : line_t) : line_t :=
  let old := hash L in
  let L1 := set_hash L (djb_hash (text L) (strlen (text L))) in
  if hash L1 =? old then L1
  else jit_scan (text L1) (set_bc_len L1 0).

(** Whether [jit_line] leaves at [if(L->hash == old) return;]. *)
Definition jit_cache_hit (L : line_t) : bool :=
  djb_hash (text L) (strlen (text L)) =? hash L.

(** [static void jit_line(int lineno)] on the global arena; an index
    outside the arena (undefined in C) changes nothing. *)
Definition jit_line (lineno : Z) (m : machine) : machine :=
  match arena m !! Z.to_nat lineno with
  | Some L => set_arena m (<[Z.to_nat lineno := jit_record L]> (arena m))
  | None => m
  end.

(** [[
    static void patch_vm(void){
        vm_reset();
        for(int i=0;i<=last_line;i++) jit_line(i);
    }
    ]] *)
Definition patch_vm (m : machine) : machine :=
  let m1 := vm_reset m in
  foldl (fun acc i => jit_line i acc) m1 (seqZ 0 (last_line m1 + 1)).

(** The front end writing the text of a slot in place (in the read loop,
    [fgets(arena[last_line].text, LINE_SZ, stdin)]). *)
Definition store_text (lineno : Z) (t : string) (m : machine) : machine :=
  match arena m !! Z.to_nat lineno with
  | Some L => set_arena m (<[Z.to_nat lineno := set_text L t]> (arena m))
  | None => m
  end.

(** [vm_run_line(&arena[lineno])] *)
Definition run_slot (lineno : Z) (m : machine) : machine :=
  match arena m !! Z.to_nat lineno with
  | Some L => vm_run_line L m
  | None => m
  end.

(** One turn of the read loop of [repl], without its input and output:
    [[
        fgets(arena[last_line].text, LINE_SZ, stdin);
        jit_line(last_line);
        vm_run_line(&arena[last_line]);
        last_line = (last_line+1) % BUF_LINES;
    ]]
    [fgets] stores at most [LINE_SZ - 1] characters; the test for [exit],
    which only ends the loop, is left out. *)
Definition repl_turn (input : string) (m : machine) : machine :=
  let n := last_line m in
  let m1 := store_text n (substring 0 (Z.to_nat (LINE_SZ - 1)) input) m in
  let m2 := jit_line n m1 in
  let m3 := run_slot n m2 in
  set_last_line m3 ((last_line m3 + 1) mod BUF_LINES).

(** The token sequence of a text, read off the same scan without a
    buffer: what the loop of [jit_line] would emit into an unbounded
    one. *)
Equations? tokenize (p : string) : list Z by wf (String.length p) lt :=
  tokenize p with is_nul (peek p) => {
    | true := []
    | false with inspect (strncmp (skip_space p) kw_add 3 =? 0) => {
        | exist _ true Hadd :=
            OP_POSIT_ADD :: tokenize (advance 3 (skip_space p))
        | exist _ false _
            with inspect (strncmp (skip_space p) kw_quine 5 =? 0) => {
            | exist _ true Hquine :=
                OP_QUINE_MOMENT :: tokenize (advance 5 (skip_space p))
            | exist _ false _ := [] } } }.
Proof.
  - apply (keyword_step p kw_add); [reflexivity | simpl; lia | exact Hadd].
  - apply (keyword_step p kw_quine); [reflexivity | simpl; lia | exact Hquine].
Qed.

(** The live part of the operand stack: [stack[0] .. stack[sp-1]]. *)
Definition live_stack (m : machine) : list Z := take (Z.to_nat (sp m)) (stack m).

(** Well-formedness of a record: the fixed-size buffer and its count. *)
Definition line_wf (L : line_t) : Prop :=
  length (bc L) = Z.to_nat BC_SZ /\ 0 <= bc_len L <= BC_SZ.

(** Invariant of the arena: every record has its 128-byte buffer and a
    length within it. *)
Definition arena_wf (m : machine) : Prop := Forall line_wf (arena m).

(** What an operation leaves alone outside the arena. *)
Definition same_vm (m m' : machine) : Prop :=
  sp m' = sp m /\ stack m' = stack m /\ ledger m' = ledger m /\
  last_line m' = last_line m.

(** The operations on the machine state, and the states they reach from
    the zero-initialised one. *)
Inductive step : machine -> machine -> Prop :=
| step_store (i : Z) (t : string) (m : machine) :
    step m (store_text i t m)
| step_jit (i : Z) (m : machine) :
    step m (jit_line i m)
| step_patch (m : machine) :
    step m (patch_vm m)
| step_run (i : Z) (m : machine) :
    step m (run_slot i m)
| step_repl (t : string) (m : machine) :
    step m (repl_turn t m).

Inductive reachable : machine -> Prop :=
| reach_init : reachable init
| reach_step (m m' : machine) : reachable m -> step m m' -> reachable m'.

(* ===================================================================== *)
(** ** 6-7. The front ends: LSP loop and read loop                        *)
(* ===================================================================== *)

(** [strstr(hay, needle) != NULL]: the needle occurs in the C string. *)
Fixpoint strstr (hay needle : string) : bool :=
  if strncmp hay needle (strlen needle) =? 0 then true
  else match hay with
       | EmptyString => false
       | String c hay' => if is_nul c then false else strstr hay' needle
       end.

Definition tag_didSave : string := "textDocument/didSave".
Definition tag_completion : string := "textDocument/completion".

(** The constant reply of the completion stub, a JSON object with an
    empty result; [dq] is the double quote character. *)
Definition dq : string := String "034"%char EmptyString.

Definition lsp_resp : string :=
  String.concat EmptyString
    ["{"; dq; "jsonrpc"; dq; ":"; dq; "2.0"; dq; ","; dq; "id"; dq; ":1,";
     dq; "result"; dq; ":[]}"]%string.

(** What one [printf] of the loop sends: the number after
    [Content-Length:] and the body. *)
Record lsp_reply : Type := mk_reply { content_length : nat; body : string }.

(** The body of the loop of [lsp_loop], for one buffer read by [fgets]:
    [[
        if(strstr(buf,"textDocument/didSave")) patch_vm();
        if(strstr(buf,"textDocument/completion")){
            const char *resp = ...;
            printf("Content-Length: %zu\r\n\r\n%s\n", strlen(resp), resp);
        }
    ]] *)
Definition lsp_turn (buf : string) (m : machine) : machine * list lsp_reply :=
  let m1 := if strstr buf tag_didSave then patch_vm m else m in
  (m1, if strstr buf tag_completion
       then [mk_reply (strlen lsp_resp) lsp_resp] else []).

(** [lsp_loop] over the successive buffers, until [fgets] fails. *)
Fixpoint lsp_loop (bufs : list string) (m : machine)
  : machine * list lsp_reply :=
  match bufs with
  | [] => (m, [])
  | buf :: rest =>
      let '(m1, out) := lsp_turn buf m in
      let '(m2, outs) := lsp_loop rest m1 in
      (m2, out ++ outs)
  end.

(** What [fgets(.., LINE_SZ, stdin)] can store: at most [LINE_SZ - 1]
    characters.  The inputs of the loops below are the successive strings
    that [fgets] reads; the cut only keeps the model within the field for
    a string longer than that. *)
Definition fgets_line (input : string) : string :=
  substring 0 (Z.to_nat (LINE_SZ - 1)) input.

Definition slot_text (m : machine) (lineno : Z) : string :=
  match arena m !! Z.to_nat lineno with
  | Some L => text L
  | None => EmptyString
  end.

(** The two values that the read loop prints after a line:
    [decode8(stack[sp>0?sp-1:0])] and [ledger.landauer]. *)
Definition repl_report (m : machine) : float * Z :=
  (decode8 (rd (stack m) (if sp m >? 0 then sp m - 1 else 0)),
   landauer (ledger m)).

(** [[
    while(1){
        if(!fgets(arena[last_line].text, LINE_SZ, stdin)) break;
        if(strncmp(arena[last_line].text,"exit",4)==0) break;
        jit_line(last_line);
        vm_run_line(&arena[last_line]);
        printf(.., decode8(stack[sp>0?sp-1:0]), ledger.landauer);
        last_line = (last_line+1) % BUF_LINES;
    }
    ]]
    on the list of the strings read by [fgets], the end of the list
    being the end of the input; the result is the final machine and the
    values printed after each line (the banner is left out). *)
Fixpoint repl (inputs : list string) (m : machine)
  : machine * list (float * Z) :=
  match inputs with
  | [] => (m, [])
  | t :: rest =>
      let m1 := store_text (last_line m) (fgets_line t) m in
      if strncmp (slot_text m1 (last_line m1)) "exit" 4 =? 0 then (m1, [])
      else
        let m2 := jit_line (last_line m1) m1 in
        let m3 := run_slot (last_line m2) m2 in
        let r := repl_report m3 in
        let m4 := set_last_line m3 ((last_line m3 + 1) mod BUF_LINES) in
        let '(mf, rs) := repl rest m4 in
        (mf, r :: rs)
  end.

(** ** Measures used in the statements *)

(** The result byte of [add8], whatever the ledger. *)
Definition add8_byte (a b : Z) : Z := fst (add8 a b (mk_ledger 0)).

(** The number of instructions of a run that completed (returned
    "continue"). *)
Fixpoint vm_ticks (code : list Z) (m : machine) : nat :=
  match code with
  | [] => O
  | op :: rest =>
      let '(m', continue) := vm_step op m in
      if continue then S (vm_ticks rest m') else O
  end.

(** The number of MOMENT instructions at the head of a buffer. *)
Fixpoint leading_moments (code : list Z) : nat :=
  match code with
  | op :: rest => if op =? OP_QUINE_MOMENT then S (leading_moments rest) else O
  | [] => O
  end.

(** Saturation of a real value to the range of the format. *)
Definition fclamp (x : float) : float :=
  if (7.9375 <? x)%float then 7.9375%float
  else if (x <? -8)%float then (-8)%float else x.

(** [f a && f (a+1) && ... && f (a+n-1)], for checks over a long range
    of integers. *)
Fixpoint all_from (n : nat) (a : Z) (f : Z -> bool) : bool :=
  match n with
  | O => true
  | S n' => f a && all_from n' (a + 1) f
  end.

(** The input lines that the read loop processes: those before the first
    one that starts with [exit]. *)
Fixpoint before_exit (inputs : list string) : list string :=
  match inputs with
  | [] => []
  | t :: rest =>
      if strncmp (fgets_line t) "exit" 4 =? 0 then []
      else t :: before_exit rest
  end.

(** [last_line] indexes the arena, which has its [BUF_LINES] slots. *)
Definition in_range (m : machine) : Prop :=
  0 <= last_line m < BUF_LINES /\ length (arena m) = Z.to_nat BUF_LINES.

(** The read loop fed with lines none of which is [exit]. *)
Definition repl_turns (inputs : list string) (m : machine) : machine :=
  foldl (fun acc t => repl_turn t acc) m inputs.

(* ===================================================================== *)
(** * Properties                                                          *)
(* ===================================================================== *)

Section MachineIntegers.

Lemma u8_range x : 0 <= u8 x < 256.
Proof. unfold u8. apply Z.mod_pos_bound. lia. Qed.

Lemma s8_range x : -128 <= s8 x <= 127.
Proof.
  unfold s8. pose proof (Z.mod_pos_bound x 256 ltac:(lia)).
  destruct (Z.ltb_spec (x mod 256) 128); lia.
Qed.

Lemma s8_small x : -128 <= x <= 127 -> s8 x = x.
Proof.
  intros Hx. unfold s8.
  destruct (Z.ltb_spec (x mod 256) 128) as [H|H].
  - destruct (Z.lt_ge_cases x 0).
    + rewrite <- (Z.mod_add x 1 256) in H by lia.
      rewrite Z.mod_small in H by lia. lia.
    + apply Z.mod_small. lia.
  - destruct (Z.lt_ge_cases x 0).
    + rewrite <- (Z.mod_add x 1 256) by lia.
      rewrite Z.mod_small by lia. lia.
    + rewrite Z.mod_small in H by lia. lia.
Qed.

Lemma s8_u8 x : s8 (u8 x) = s8 x.
Proof. unfold s8, u8. rewrite Z.mod_mod by lia. reflexivity. Qed.

Lemma clamp8_range q : -128 <= clamp8 q <= 127.
Proof.
  unfold clamp8.
  destruct (Z.gtb_spec q 127); [lia|].
  destruct (Z.ltb_spec q (-128)); lia.
Qed.

Lemma clamp8_spec q : clamp8 q = Z.max (-128) (Z.min 127 q).
Proof.
  unfold clamp8.
  destruct (Z.gtb_spec q 127); [lia|].
  destruct (Z.ltb_spec q (-128)); lia.
Qed.

Lemma s16_small x : -32768 <= x <= 32767 -> s16 x = x.
Proof.
  intros Hx. unfold s16.
  destruct (Z.lt_ge_cases x 0).
  - replace (x mod 65536) with (x + 65536).
    + destruct (Z.ltb_spec (x + 65536) 32768); lia.
    + symmetry. rewrite <- (Z.mod_add x 1 65536) by lia.
      apply Z.mod_small. lia.
  - rewrite Z.mod_small by lia.
    destruct (Z.ltb_spec x 32768); lia.
Qed.

End MachineIntegers.

(* --------------------------------------------------------------------- *)
(** ** Codec                                                              *)
(* --------------------------------------------------------------------- *)

Example encode8_100 : encode8 100 = Some 127.
Proof. reflexivity. Qed.

Example encode8_minus_100 : option_map s8 (encode8 (-100)) = Some (-128).
Proof. reflexivity. Qed.

Example encode8_one : encode8 1 = Some 16.
Proof. reflexivity. Qed.

Lemma forallb_seqZ (f : Z -> bool) (a n : Z) :
  forallb f (seqZ a n) = true -> forall k, a <= k < a + n -> f k = true.
Proof.
  intros H k Hk. rewrite forallb_forall in H. apply H.
  apply list_elem_of_In, elem_of_seqZ. lia.
Qed.

(** On the non-negative half of the range the codec is exact. *)
Lemma roundtrip_nonneg (k : Z) :
  0 <= k <= 127 -> roundtrip_ok (sixteenth k) = true.
Proof.
  intros Hk.
  apply (forallb_seqZ (fun k => roundtrip_ok (sixteenth k)) 0 128); [|lia].
  vm_compute. reflexivity.
Qed.

(** On the negative half, adding 0.5 and truncating toward zero lands one
    step above the operand: [k/16] is stored as [k+1]. *)
Lemma encode8_negative (k : Z) :
  -128 <= k <= -1 -> option_map s8 (encode8 (sixteenth k)) = Some (k + 1).
Proof.
  intros Hk.
  assert (forallb (fun k => match option_map s8 (encode8 (sixteenth k)) with
                            | Some q => q =? k + 1
                            | None => false
                            end) (seqZ (-128) 128) = true) as H
    by (vm_compute; reflexivity).
  pose proof (forallb_seqZ _ _ _ H k ltac:(lia)) as Hq. cbv beta in Hq.
  destruct (option_map s8 (encode8 (sixteenth k))); [|discriminate].
  apply Z.eqb_eq in Hq. congruence.
Qed.

Lemma roundtrip_negative (k : Z) :
  -128 <= k <= -1 -> roundtrip_ok (sixteenth k) = false.
Proof.
  intros Hk.
  assert (forallb (fun k => negb (roundtrip_ok (sixteenth k)))
                  (seqZ (-128) 128) = true) as H
    by (vm_compute; reflexivity).
  pose proof (forallb_seqZ _ _ _ H k ltac:(lia)) as Hq. cbv beta in Hq.
  destruct (roundtrip_ok (sixteenth k)); [discriminate | reflexivity].
Qed.

(** C1. The round trip [decode8(encode8(x)) == x] is claimed for every
    multiple of 1/16 in [-8, 7.9375].  At [x = -1.0] the code computes
    [(int16_t)(-16.0 + 0.5) = (int16_t)(-15.5) = -15], stores the byte
    241, and decodes it to [-0.9375]: the round trip fails there (and, by
    [roundtrip_negative], at every negative multiple). *)
Theorem encode8_roundtrip_fails_at_minus_one :
  sixteenth (-16) = (-1)%float /\
  encode8 (-1) = Some 241 /\
  s8 241 = -15 /\
  decode8 241 = (-0.9375)%float /\
  roundtrip_ok (-1) = false.
Proof. repeat split; vm_compute; reflexivity. Qed.

(* --------------------------------------------------------------------- *)
(** ** Tokenizer                                                          *)
(* --------------------------------------------------------------------- *)

(** Rewrite with the outcomes of the keyword tests that [funelim] put in
    the context. *)
Ltac use_keyword_tests :=
  repeat match goal with
         | E : (strncmp _ _ _ =? 0) = _ |- _ => progress rewrite E
         end.

Lemma jit_scan_eq (p : string) (L : line_t) :
  jit_scan p L =
  if is_nul (peek p) then L
  else if strncmp (skip_space p) kw_add 3 =? 0
       then jit_scan (advance 3 (skip_space p)) (emit_byte L OP_POSIT_ADD)
       else if strncmp (skip_space p) kw_quine 5 =? 0
            then jit_scan (advance 5 (skip_space p))
                          (emit_byte L OP_QUINE_MOMENT)
            else L.
Proof.
  funelim (jit_scan p L); rewrite Heq;
    use_keyword_tests; reflexivity.
Qed.

Lemma tokenize_eq (p : string) :
  tokenize p =
  if is_nul (peek p) then []
  else if strncmp (skip_space p) kw_add 3 =? 0
       then OP_POSIT_ADD :: tokenize (advance 3 (skip_space p))
       else if strncmp (skip_space p) kw_quine 5 =? 0
            then OP_QUINE_MOMENT :: tokenize (advance 5 (skip_space p))
            else [].
Proof.
  funelim (tokenize p); rewrite Heq;
    use_keyword_tests; reflexivity.
Qed.

(** The scan emits exactly the tokens of the text, in order, through
    [emit_byte]. *)
Lemma jit_scan_emits (p : string) (L : line_t) :
  jit_scan p L = foldl emit_byte L (tokenize p).
Proof.
  funelim (jit_scan p L); rewrite (tokenize_eq p), Heq;
    use_keyword_tests; cbn [foldl]; auto.
Qed.

Lemma tokenize_opcodes (p : string) :
  Forall (fun op => op = OP_POSIT_ADD \/ op = OP_QUINE_MOMENT) (tokenize p).
Proof.
  funelim (tokenize p); auto.
Qed.

Example tokenize_add_quine_add :
  tokenize "add quine add" = [OP_POSIT_ADD; OP_QUINE_MOMENT; OP_POSIT_ADD].
Proof. reflexivity. Qed.

Example tokenize_addx : tokenize "addx" = [OP_POSIT_ADD].
Proof. reflexivity. Qed.

Example jit_record_addx :
  live_code (jit_record (set_text blank_line "addx")) = [OP_POSIT_ADD].
Proof. vm_compute. reflexivity. Qed.

(* --------------------------------------------------------------------- *)
(** ** Instruction buffer                                                 *)
(* --------------------------------------------------------------------- *)

Section Buffer.

Lemma live_code_length (L : line_t) :
  line_wf L -> length (live_code L) = Z.to_nat (bc_len L).
Proof.
  intros [Hlen Hn]. unfold live_code. rewrite length_take, Hlen.
  unfold BC_SZ in *. lia.
Qed.

Lemma emit_byte_frame (L : line_t) (b : Z) :
  text (emit_byte L b) = text L /\ hash (emit_byte L b) = hash L.
Proof. unfold emit_byte. destruct (bc_len L <? BC_SZ); auto. Qed.

(** Each byte is stored only while the buffer is not full, so the length
    never passes the capacity. *)
Lemma emit_byte_wf (L : line_t) (b : Z) : line_wf L -> line_wf (emit_byte L b).
Proof.
  intros [Hlen Hn]. unfold emit_byte, line_wf.
  destruct (Z.ltb_spec (bc_len L) BC_SZ) as [Hlt|Hge]; cbn; [|auto].
  unfold wr. rewrite length_insert. split; [exact Hlen|].
  unfold u8, BC_SZ in *. rewrite Z.mod_small; lia.
Qed.

Lemma emit_byte_len (L : line_t) (b : Z) :
  line_wf L -> bc_len (emit_byte L b) = Z.min BC_SZ (bc_len L + 1).
Proof.
  intros [Hlen Hn]. unfold emit_byte.
  destruct (Z.ltb_spec (bc_len L) BC_SZ) as [Hlt|Hge]; cbn.
  - unfold u8, BC_SZ in *. rewrite Z.mod_small; lia.
  - lia.
Qed.

Lemma emit_byte_live (L : line_t) (b : Z) :
  line_wf L ->
  live_code (emit_byte L b) = take (Z.to_nat BC_SZ) (live_code L ++ [b]).
Proof.
  intros [Hlen Hn]. unfold emit_byte, live_code.
  destruct (Z.ltb_spec (bc_len L) BC_SZ) as [Hlt|Hge]; cbn.
  - assert (u8 (bc_len L + 1) = bc_len L + 1) as ->
      by (unfold u8, BC_SZ in *; rewrite Z.mod_small; lia).
    replace (Z.to_nat (bc_len L + 1)) with (S (Z.to_nat (bc_len L))) by lia.
    unfold wr.
    rewrite (take_S_r _ _ b)
      by (apply list_lookup_insert_eq; unfold BC_SZ in *; lia).
    rewrite take_insert_ge by lia.
    symmetry. apply take_ge.
    rewrite length_app, length_take. cbn. unfold BC_SZ in *. lia.
  - assert (bc_len L = BC_SZ) as -> by lia.
    rewrite (take_ge (bc L)) by lia.
    rewrite take_app_le by lia. rewrite take_ge by lia. reflexivity.
Qed.

Lemma emit_all_wf (toks : list Z) (L : line_t) :
  line_wf L -> line_wf (foldl emit_byte L toks).
Proof.
  revert L. induction toks as [|b toks IH]; intros L HL; cbn; auto.
  apply IH, emit_byte_wf, HL.
Qed.

Lemma emit_all_frame (toks : list Z) (L : line_t) :
  text (foldl emit_byte L toks) = text L /\
  hash (foldl emit_byte L toks) = hash L.
Proof.
  revert L. induction toks as [|b toks IH]; intros L; cbn; auto.
  destruct (IH (emit_byte L b)) as [-> ->]. apply emit_byte_frame.
Qed.

Lemma emit_all_live (toks : list Z) (L : line_t) :
  line_wf L ->
  live_code (foldl emit_byte L toks)
  = take (Z.to_nat BC_SZ) (live_code L ++ toks).
Proof.
  revert L. induction toks as [|b toks IH]; intros L HL; cbn [foldl].
  - rewrite app_nil_r, take_ge; [reflexivity|].
    rewrite live_code_length by exact HL. destruct HL. lia.
  - rewrite IH by (apply emit_byte_wf, HL).
    rewrite emit_byte_live by exact HL.
    pose proof (live_code_length L HL) as Hl. destruct HL as [_ Hn].
    destruct (Z.ltb_spec (bc_len L) BC_SZ) as [Hlt|Hge].
    + rewrite (take_ge (live_code L ++ [b]))
        by (rewrite length_app; cbn; lia).
      rewrite <- app_assoc. reflexivity.
    + assert (length (live_code L) = Z.to_nat BC_SZ) as Hfull by lia.
      rewrite (take_app_le (live_code L) [b]) by lia.
      rewrite (take_ge (live_code L)) by lia.
      rewrite (take_app_le (live_code L) toks) by lia.
      rewrite (take_app_le (live_code L) (b :: toks)) by lia.
      reflexivity.
Qed.

Lemma emit_all_len (toks : list Z) (L : line_t) :
  line_wf L ->
  bc_len (foldl emit_byte L toks)
  = Z.min BC_SZ (bc_len L + Z.of_nat (length toks)).
Proof.
  revert L. induction toks as [|b toks IH]; intros L HL; cbn [foldl length].
  - destruct HL. lia.
  - rewrite IH by (apply emit_byte_wf, HL).
    rewrite emit_byte_len by exact HL. destruct HL. lia.
Qed.

End Buffer.

(* --------------------------------------------------------------------- *)
(** ** Hash-gated compilation of one record                               *)
(* --------------------------------------------------------------------- *)

Section Compile.

Lemma set_hash_same (L : line_t) : set_hash L (hash L) = L.
Proof. destruct L; reflexivity. Qed.

Lemma jit_scan_frame (p : string) (L : line_t) :
  text (jit_scan p L) = text L /\ hash (jit_scan p L) = hash L.
Proof. rewrite jit_scan_emits. apply emit_all_frame. Qed.

(** Cache hit: the record is returned as it was. *)
Lemma jit_record_hit (L : line_t) :
  jit_cache_hit L = true -> jit_record L = L.
Proof.
  unfold jit_cache_hit, jit_record. cbn. intros H. rewrite H.
  apply Z.eqb_eq in H. rewrite H. apply set_hash_same.
Qed.

(** Cache miss: the length is cleared and the text is scanned. *)
Lemma jit_record_miss (L : line_t) :
  jit_cache_hit L = false ->
  jit_record L =
  jit_scan (text L)
    (mk_line (text L) (djb_hash (text L) (strlen (text L))) (bc L) 0).
Proof.
  unfold jit_cache_hit, jit_record. cbn. intros ->. reflexivity.
Qed.

Lemma jit_record_text (L : line_t) : text (jit_record L) = text L.
Proof.
  destruct (jit_cache_hit L) eqn:H.
  - rewrite jit_record_hit by exact H. reflexivity.
  - rewrite jit_record_miss by exact H.
    destruct (jit_scan_frame (text L)
                (mk_line (text L) (djb_hash (text L) (strlen (text L)))
                         (bc L) 0)) as [-> _].
    reflexivity.
Qed.

(** Hit or miss, the stored hash afterwards is the hash of the text. *)
Lemma jit_record_hash (L : line_t) :
  hash (jit_record L) = djb_hash (text L) (strlen (text L)).
Proof.
  destruct (jit_cache_hit L) eqn:H.
  - rewrite jit_record_hit by exact H.
    unfold jit_cache_hit in H. apply Z.eqb_eq in H. auto.
  - rewrite jit_record_miss by exact H.
    destruct (jit_scan_frame (text L)
                (mk_line (text L) (djb_hash (text L) (strlen (text L)))
                         (bc L) 0)) as [_ ->].
    reflexivity.
Qed.

Lemma jit_record_miss_live (L : line_t) :
  length (bc L) = Z.to_nat BC_SZ ->
  jit_cache_hit L = false ->
  live_code (jit_record L) = take (Z.to_nat BC_SZ) (tokenize (text L)) /\
  bc_len (jit_record L)
  = Z.min BC_SZ (Z.of_nat (length (tokenize (text L)))).
Proof.
  intros Hlen H. rewrite jit_record_miss by exact H.
  rewrite jit_scan_emits.
  set (L0 := mk_line _ _ _ 0).
  assert (line_wf L0) as HL0 by (split; cbn; [exact Hlen | unfold BC_SZ; lia]).
  rewrite emit_all_live, emit_all_len by exact HL0.
  split; reflexivity.
Qed.

Lemma jit_record_wf (L : line_t) : line_wf L -> line_wf (jit_record L).
Proof.
  intros HL. destruct (jit_cache_hit L) eqn:H.
  - rewrite jit_record_hit by exact H. exact HL.
  - rewrite jit_record_miss by exact H. rewrite jit_scan_emits.
    apply emit_all_wf. destruct HL as [Hlen _].
    split; cbn; [exact Hlen | unfold BC_SZ; lia].
Qed.

End Compile.

(** C5. With the text unchanged, a second [compile_line] finds the stored
    hash equal to the hash of the text, leaves at that test without
    scanning, and returns the record (hash, buffer, length) unchanged;
    the same holds for the slot inside the arena. *)
Theorem jit_line_twice_is_cache_hit :
  (forall L : line_t,
      jit_cache_hit (jit_record L) = true /\
      jit_record (jit_record L) = jit_record L) /\
  (forall (i : Z) (m : machine), jit_line i (jit_line i m) = jit_line i m).
Proof.
  assert (forall L, jit_cache_hit (jit_record L) = true) as Hhit.
  { intros L. unfold jit_cache_hit.
    rewrite jit_record_hash, jit_record_text. apply Z.eqb_refl. }
  split.
  - intros L. split; [apply Hhit | apply jit_record_hit, Hhit].
  - intros i m. unfold jit_line.
    destruct (arena m !! Z.to_nat i) as [L|] eqn:HL; cbn; [|rewrite HL; reflexivity].
    rewrite list_lookup_insert_eq by (eapply lookup_lt_Some, HL).
    unfold set_arena; cbn. rewrite list_insert_insert_eq.
    rewrite jit_record_hit by apply Hhit. reflexivity.
Qed.

(** C2 (as stated, refuted). On a freshly zeroed record holding the text
    [addx] the compiler leaves one instruction, not none. *)
Lemma addx_is_not_empty :
  bc_len (jit_record (set_text blank_line "addx")) <> 0 /\
  live_code (jit_record (set_text blank_line "addx")) <> [].
Proof. split; vm_compute; discriminate. Qed.

(** C2 (amended). Compiling the text [addx], on any record whose stored
    hash does not already equal the hash of that text, yields the single
    instruction [ADD] ([code_len = 1]): [strncmp] matches the keyword
    [add] as a prefix of the longer token and the scan stops at the
    remaining [x]. *)
Theorem addx_compiles_to_add (L : line_t) :
  length (bc L) = Z.to_nat BC_SZ ->
  hash L <> djb_hash "addx" 4 ->
  live_code (jit_record (set_text L "addx")) = [OP_POSIT_ADD] /\
  bc_len (jit_record (set_text L "addx")) = 1.
Proof.
  intros Hlen Hh.
  assert (jit_cache_hit (set_text L "addx") = false) as Hmiss.
  { unfold jit_cache_hit. cbn [text hash set_text].
    apply Z.eqb_neq. change (strlen "addx") with 4%nat. congruence. }
  destruct (jit_record_miss_live (set_text L "addx") Hlen Hmiss) as [-> ->].
  cbn [text set_text]. split; reflexivity.
Qed.

Lemma addx_compiles_to_add_witness :
  length (bc blank_line) = Z.to_nat BC_SZ /\
  hash blank_line <> djb_hash "addx" 4 /\
  live_code (jit_record (set_text blank_line "addx")) = [OP_POSIT_ADD] /\
  bc_len (jit_record (set_text blank_line "addx")) = 1.
Proof.
  assert (length (bc blank_line) = Z.to_nat BC_SZ) as Hlen by reflexivity.
  assert (hash blank_line <> djb_hash "addx" 4) as Hh
    by (vm_compute; discriminate).
  exact (conj Hlen (conj Hh (addx_compiles_to_add blank_line Hlen Hh))).
Defined.

(** C3 (as stated, refuted). Take the record compiled from [add] and
    change its text to [aeC]: the two texts differ but have the same
    DJB2 hash, so [compile_line] returns at the hash test and the buffer
    still holds [ADD], although [aeC] alone compiles to nothing. *)
Lemma colliding_text_is_not_recompiled :
  let L := jit_record (set_text blank_line "add") in
  let L' := jit_record (set_text L "aeC") in
  "aeC"%string <> text L /\
  hash L' = djb_hash "aeC" (strlen "aeC") /\
  live_code L' = [OP_POSIT_ADD] /\
  bc_len L' = 1 /\
  live_code (jit_record (set_text blank_line "aeC")) = [] /\
  live_code L' <> take (Z.to_nat BC_SZ) (tokenize "aeC").
Proof. cbv zeta. repeat split; vm_compute; congruence. Qed.

(** C3 (amended). For every record and every new text whose hash differs
    from the stored hash, [compile_line] after the text change stores the
    hash of the new text and rebuilds the live buffer from the new text
    alone: the length restarts at zero and the buffer holds exactly the
    tokens of the new text, cut at the capacity, whatever it held
    before. (The hash of the new text is stored in every case.) *)
Theorem changed_hash_recompiles_from_scratch (L : line_t) (t : string) :
  length (bc L) = Z.to_nat BC_SZ ->
  djb_hash t (strlen t) <> hash L ->
  let L' := jit_record (set_text L t) in
  text L' = t /\
  hash L' = djb_hash t (strlen t) /\
  live_code L' = take (Z.to_nat BC_SZ) (tokenize t) /\
  bc_len L' = Z.min BC_SZ (Z.of_nat (length (tokenize t))) /\
  L' = jit_scan t (mk_line t (djb_hash t (strlen t)) (bc L) 0).
Proof.
  intros Hlen Hh L'. subst L'.
  assert (jit_cache_hit (set_text L t) = false) as Hmiss
    by (unfold jit_cache_hit; cbn [text hash set_text]; apply Z.eqb_neq, Hh).
  destruct (jit_record_miss_live (set_text L t) Hlen Hmiss) as [Hlive Hn].
  repeat split.
  - apply jit_record_text.
  - apply jit_record_hash.
  - exact Hlive.
  - exact Hn.
  - apply (jit_record_miss _ Hmiss).
Qed.

Lemma changed_hash_recompiles_from_scratch_witness :
  let L := jit_record (set_text blank_line "add add") in
  let L' := jit_record (set_text L "quine") in
  length (bc L) = Z.to_nat BC_SZ /\
  djb_hash "quine" (strlen "quine") <> hash L /\
  text L' = "quine"%string /\
  hash L' = djb_hash "quine" (strlen "quine") /\
  live_code L' = take (Z.to_nat BC_SZ) (tokenize "quine") /\
  bc_len L' = Z.min BC_SZ (Z.of_nat (length (tokenize "quine"))) /\
  L' = jit_scan "quine"
         (mk_line "quine" (djb_hash "quine" (strlen "quine")) (bc L) 0).
Proof.
  intros L L'.
  assert (length (bc L) = Z.to_nat BC_SZ) as Hlen by (vm_compute; reflexivity).
  assert (djb_hash "quine" (strlen "quine") <> hash L) as Hh
    by (vm_compute; discriminate).
  exact (conj Hlen (conj Hh
           (changed_hash_recompiles_from_scratch L "quine" Hlen Hh))).
Defined.

(** Cells of the array past the new length keep what the previous compile
    stored there; they are not part of the buffer that is executed. *)
Example cells_past_the_length_are_stale :
  take 3 (bc (jit_record (set_text
                (jit_record (set_text blank_line "add add")) "quine")))
  = [OP_QUINE_MOMENT; OP_POSIT_ADD; 0].
Proof. vm_compute. reflexivity. Qed.

Example recompiled_buffer_is_not_appended :
  live_code (jit_record (set_text
               (jit_record (set_text blank_line "add add")) "quine"))
  = [OP_QUINE_MOMENT].
Proof. vm_compute. reflexivity. Qed.

(* --------------------------------------------------------------------- *)
(** ** Bytecode VM                                                        *)
(* --------------------------------------------------------------------- *)

Section VM.

Lemma vm_step_add_underflow (m : machine) :
  sp m < 2 -> vm_step OP_POSIT_ADD m = (m, false).
Proof.
  intros H. unfold vm_step. cbn.
  destruct (Z.ltb_spec (sp m) 2); [reflexivity | lia].
Qed.

Lemma vm_step_add (m : machine) :
  2 <= sp m ->
  vm_step OP_POSIT_ADD m =
  (mk_machine (arena m) (last_line m) (ledger_tick (ledger m))
     (wr (stack m) (sp m - 2)
         (fst (add8 (rd (stack m) (sp m - 2)) (rd (stack m) (sp m - 1))
                    (ledger m))))
     (sp m - 1), true).
Proof.
  intros H. unfold vm_step. cbn.
  destruct (Z.ltb_spec (sp m) 2); [lia|].
  replace (sp m - 1 - 1) with (sp m - 2) by lia. reflexivity.
Qed.

Lemma vm_step_moment (m : machine) :
  vm_step OP_QUINE_MOMENT m = (set_ledger m (ledger_tick (ledger m)), true).
Proof. reflexivity. Qed.

Lemma vm_step_other (op : Z) (m : machine) :
  op <> OP_POSIT_ADD -> op <> OP_QUINE_MOMENT -> vm_step op m = (m, false).
Proof.
  intros Ha Hq. unfold vm_step.
  destruct (Z.eqb_spec op OP_POSIT_ADD); [contradiction|].
  destruct (Z.eqb_spec op OP_QUINE_MOMENT); [contradiction|].
  destruct (op =? OP_HALT); reflexivity.
Qed.

(** The three shapes a step can take. *)
Lemma vm_step_cases (op : Z) (m : machine) :
  vm_step op m = (m, false) \/
  (op = OP_QUINE_MOMENT /\
   vm_step op m = (set_ledger m (ledger_tick (ledger m)), true)) \/
  (op = OP_POSIT_ADD /\ 2 <= sp m /\
   sp (fst (vm_step op m)) = sp m - 1 /\ snd (vm_step op m) = true).
Proof.
  destruct (Z.eq_dec op OP_POSIT_ADD) as [->|Ha].
  - destruct (Z.lt_ge_cases (sp m) 2).
    + left. apply vm_step_add_underflow. assumption.
    + right. right. rewrite vm_step_add by assumption. cbn. auto.
  - destruct (Z.eq_dec op OP_QUINE_MOMENT) as [->|Hq].
    + right. left. split; reflexivity.
    + left. apply vm_step_other; assumption.
Qed.

Lemma vm_step_sp_le (op : Z) (m : machine) : sp (fst (vm_step op m)) <= sp m.
Proof.
  destruct (vm_step_cases op m) as [E|[[_ E]|(_ & _ & E & _)]];
    rewrite E; cbn; lia.
Qed.

Lemma vm_exec_sp_le (code : list Z) (m : machine) :
  sp (vm_exec code m) <= sp m.
Proof.
  revert m. induction code as [|op rest IH]; intros m; cbn; [lia|].
  pose proof (vm_step_sp_le op m) as Hs.
  destruct (vm_step op m) as [m' c]; cbn in Hs.
  destruct c; [specialize (IH m')|]; lia.
Qed.


Lemma vm_exec_arena (code : list Z) (m : machine) :
  arena (vm_exec code m) = arena m /\
  last_line (vm_exec code m) = last_line m.
Proof.
  revert m. induction code as [|op rest IH]; intros m; cbn; [auto|].
  assert (arena (fst (vm_step op m)) = arena m /\
          last_line (fst (vm_step op m)) = last_line m) as Hf.
  { destruct (Z.eq_dec op OP_POSIT_ADD) as [->|Ha].
    - destruct (Z.lt_ge_cases (sp m) 2).
      + rewrite vm_step_add_underflow by assumption. auto.
      + rewrite vm_step_add by assumption. auto.
    - destruct (Z.eq_dec op OP_QUINE_MOMENT) as [->|Hq].
      + auto.
      + rewrite vm_step_other by assumption. auto. }
  destruct (vm_step op m) as [m' c]; cbn in Hf.
  destruct c; [|exact Hf].
  destruct (IH m') as [-> ->]. exact Hf.
Qed.

(** From the empty stack every executed instruction finds the stack
    empty, and the run changes neither the stack nor its pointer. *)
Lemma vm_exec_empty_stack (code : list Z) (m : machine) :
  sp m = 0 ->
  sp (vm_exec code m) = 0 /\
  stack (vm_exec code m) = stack m /\
  Forall (fun e => sp (snd e) = 0) (vm_trace code m).
Proof.
  revert m. induction code as [|op rest IH]; intros m H0; cbn; [auto|].
  destruct (vm_step_cases op m) as [E|[[_ E]|(_ & Hge & _)]]; [| |lia].
  - rewrite E. auto.
  - rewrite E. destruct (IH (set_ledger m (ledger_tick (ledger m))) H0)
      as (Hs & Hk & Ht).
    auto.
Qed.

End VM.

(** An instruction that aborts without effect cuts the buffer where it
    stands. *)
Section Inert.

Variable op : Z.
Hypothesis op_inert : forall s, vm_step op s = (s, false).

Lemma vm_exec_cut (pre rest : list Z) (m : machine) :
  vm_exec (pre ++ op :: rest) m = vm_exec pre m.
Proof.
  revert m. induction pre as [|o pre IH]; intros m; cbn.
  - rewrite op_inert. reflexivity.
  - destruct (vm_step o m) as [m' c]. destruct c; auto.
Qed.

Lemma vm_exec_inert_head (rest : list Z) (m : machine) :
  vm_exec (op :: rest) m = m.
Proof. apply (vm_exec_cut [] rest m). Qed.

End Inert.

(** C10. HALT, and every opcode other than ADD and MOMENT, returns
    "stop" with the machine (stack, stack pointer, ledger, and the rest)
    exactly as it was; the buffer is cut at that instruction. *)
Theorem halt_or_unknown_opcode_is_inert (op : Z) (m : machine) :
  op <> OP_POSIT_ADD -> op <> OP_QUINE_MOMENT ->
  vm_step op m = (m, false) /\
  vm_step OP_HALT m = (m, false) /\
  (forall pre rest, vm_exec (pre ++ op :: rest) m = vm_exec pre m) /\
  (forall L rest, live_code L = op :: rest -> vm_run_line L m = m).
Proof.
  intros Ha Hq. refine (conj _ (conj _ (conj _ _))).
  - apply vm_step_other; assumption.
  - reflexivity.
  - intros pre rest. apply vm_exec_cut. intros s.
    apply vm_step_other; assumption.
  - intros L rest HL. unfold vm_run_line. rewrite HL.
    apply vm_exec_inert_head. intros s. apply vm_step_other; assumption.
Qed.

Lemma halt_or_unknown_opcode_is_inert_witness :
  0x7E <> OP_POSIT_ADD /\ 0x7E <> OP_QUINE_MOMENT /\
  vm_step 0x7E init = (init, false) /\
  vm_exec [OP_QUINE_MOMENT; 0x7E; OP_QUINE_MOMENT] init
  = vm_exec [OP_QUINE_MOMENT] init.
Proof.
  assert (0x7E <> OP_POSIT_ADD) as Ha by discriminate.
  assert (0x7E <> OP_QUINE_MOMENT) as Hq by discriminate.
  destruct (halt_or_unknown_opcode_is_inert 0x7E init Ha Hq)
    as (E & _ & Hcut & _).
  refine (conj Ha (conj Hq (conj E _))).
  exact (Hcut [OP_QUINE_MOMENT] [OP_QUINE_MOMENT]).
Defined.

(** C6. On the empty stack ([sp = 0]) the buffer [[ADD]] changes nothing:
    stack, stack pointer and ledger (the whole machine) are as before;
    [vm_run_line] returns normally, with no error value; and whatever
    follows the ADD in the buffer is not executed. *)
Theorem add_on_empty_stack_aborts (m : machine) :
  sp m = 0 ->
  vm_step OP_POSIT_ADD m = (m, false) /\
  (forall L, live_code L = [OP_POSIT_ADD] -> vm_run_line L m = m) /\
  (forall rest, vm_exec (OP_POSIT_ADD :: rest) m = m) /\
  (forall rest, vm_trace (OP_POSIT_ADD :: rest) m = [(OP_POSIT_ADD, m)]).
Proof.
  intros H0.
  assert (vm_step OP_POSIT_ADD m = (m, false)) as E
    by (apply vm_step_add_underflow; lia).
  refine (conj _ (conj _ (conj _ _))).
  - exact E.
  - intros L HL. unfold vm_run_line. rewrite HL. cbn [vm_exec].
    rewrite E. reflexivity.
  - intros rest. cbn [vm_exec]. rewrite E. reflexivity.
  - intros rest. cbn [vm_trace]. rewrite E. reflexivity.
Qed.

Lemma add_on_empty_stack_aborts_witness :
  sp init = 0 /\
  vm_step OP_POSIT_ADD init = (init, false) /\
  vm_run_line (jit_record (set_text blank_line "add")) init = init.
Proof.
  split; [reflexivity|].
  destruct (add_on_empty_stack_aborts init eq_refl) as (E & HL & _).
  split; [exact E | apply HL; vm_compute; reflexivity].
Defined.

(* --------------------------------------------------------------------- *)
(** ** Saturating addition                                                *)
(* --------------------------------------------------------------------- *)

Lemma add8_value (a b : Z) (l : ledger_t) :
  fst (add8 a b l) = u8 (clamp8 (s8 a + s8 b)) /\
  s8 (fst (add8 a b l)) = Z.max (-128) (Z.min 127 (s8 a + s8 b)) /\
  snd (add8 a b l) = mk_ledger (wrap64 (landauer l + 1)).
Proof.
  unfold add8. cbn [fst snd].
  pose proof (s8_range a) as Ha. pose proof (s8_range b) as Hb.
  rewrite (s16_small (s8 a)), (s16_small (s8 b)) by lia.
  rewrite (s16_small (s8 a + s8 b)) by lia.
  pose proof (clamp8_range (s8 a + s8 b)) as Hc.
  rewrite (s8_small (clamp8 _)) by exact Hc.
  refine (conj eq_refl (conj _ eq_refl)).
  rewrite s8_u8, s8_small by exact Hc. apply clamp8_spec.
Qed.

Lemma live_stack_top2 (m : machine) (base : list Z) (second top : Z) :
  sp m <= Z.of_nat (length (stack m)) ->
  live_stack m = base ++ [second; top] ->
  sp m = Z.of_nat (length base) + 2 /\
  rd (stack m) (sp m - 2) = second /\
  rd (stack m) (sp m - 1) = top /\
  forall r, take (Z.to_nat (sp m - 1)) (wr (stack m) (sp m - 2) r)
            = base ++ [r].
Proof.
  intros Hsp Hlive. unfold live_stack in Hlive.
  assert (length (take (Z.to_nat (sp m)) (stack m)) = (length base + 2)%nat)
    as Hlen by (rewrite Hlive, length_app; reflexivity).
  rewrite length_take in Hlen.
  assert (Z.to_nat (sp m) = (length base + 2)%nat) as Hn by lia.
  assert (sp m = Z.of_nat (length base) + 2) as Hz by lia.
  assert (stack m = base ++ [second; top] ++ drop (Z.to_nat (sp m)) (stack m))
    as Hst.
  { rewrite <- (take_drop (Z.to_nat (sp m)) (stack m)) at 1.
    rewrite Hlive, <- app_assoc. reflexivity. }
  set (rest := drop (Z.to_nat (sp m)) (stack m)) in Hst.
  refine (conj Hz (conj _ (conj _ _))).
  - unfold rd. rewrite Hst.
    replace (Z.to_nat (sp m - 2)) with (length base + 0)%nat by lia.
    rewrite lookup_app_r by lia.
    replace (length base + 0 - length base)%nat with 0%nat by lia.
    reflexivity.
  - unfold rd. rewrite Hst.
    replace (Z.to_nat (sp m - 1)) with (length base + 1)%nat by lia.
    rewrite lookup_app_r by lia.
    replace (length base + 1 - length base)%nat with 1%nat by lia.
    reflexivity.
  - intros r. unfold wr. rewrite Hst.
    replace (Z.to_nat (sp m - 2)) with (length base + 0)%nat by lia.
    rewrite insert_app_r. cbn [app].
    replace (Z.to_nat (sp m - 1)) with (length base + 1)%nat by lia.
    rewrite take_app_add. reflexivity.
Qed.

(** C8. [add8(127, 1, ledger)] returns 127 and steps the ledger by one.
    In general [add8] adds the two operands read as signed bytes, in a
    wider signed type, and clamps the sum to [-128, 127]; the ADD
    instruction, on a stack whose live part ends in [second; top],
    replaces those two values by that result, lowers the stack pointer by
    one and continues; and the ledger goes up by exactly one, as the
    unsigned 64-bit counter it is ([landauer + 1] in [uint64_t]
    arithmetic, which is the integer [landauer + 1] below the last
    value of the counter). *)
Theorem add_saturates_and_costs_one
  (m : machine) (base : list Z) (second top : Z) :
  sp m <= Z.of_nat (length (stack m)) ->
  live_stack m = base ++ [second; top] ->
  let r := fst (add8 second top (ledger m)) in
  let m' := fst (vm_step OP_POSIT_ADD m) in
  fst (add8 127 1 (ledger m)) = 127 /\
  landauer (snd (add8 127 1 (ledger m))) = wrap64 (landauer (ledger m) + 1) /\
  s8 r = Z.max (-128) (Z.min 127 (s8 second + s8 top)) /\
  0 <= r < 256 /\
  snd (vm_step OP_POSIT_ADD m) = true /\
  live_stack m' = base ++ [r] /\
  sp m' = sp m - 1 /\
  landauer (ledger m') = wrap64 (landauer (ledger m) + 1) /\
  (0 <= landauer (ledger m) < 2 ^ 64 - 1 ->
   wrap64 (landauer (ledger m) + 1) = landauer (ledger m) + 1).
Proof.
  intros Hsp Hlive r m'.
  destruct (live_stack_top2 m base second top Hsp Hlive)
    as (Hz & Hsecond & Htop & Htake).
  destruct (add8_value second top (ledger m)) as (Hr & Hs & _).
  subst m'. rewrite vm_step_add by lia. cbn [fst snd].
  rewrite Hsecond, Htop. fold r.
  refine (conj eq_refl (conj eq_refl (conj Hs (conj _ (conj eq_refl
            (conj _ (conj eq_refl (conj eq_refl _)))))))).
  - subst r. rewrite Hr. apply u8_range.
  - unfold live_stack. cbn [sp stack]. apply Htake.
  - intros Hled. unfold wrap64. apply Z.mod_small. lia.
Qed.

Lemma add_saturates_and_costs_one_witness :
  let m := mk_machine (arena init) 0 (mk_ledger 7)
                      (wr (wr (wr (stack init) 0 5) 1 127) 2 1) 3 in
  sp m <= Z.of_nat (length (stack m)) /\
  live_stack m = [5] ++ [127; 1] /\
  live_stack (fst (vm_step OP_POSIT_ADD m)) = [5] ++ [127] /\
  landauer (ledger (fst (vm_step OP_POSIT_ADD m))) = 8.
Proof.
  intros m.
  assert (sp m <= Z.of_nat (length (stack m))) as Hsp
    by (vm_compute; discriminate).
  assert (live_stack m = [5] ++ [127; 1]) as Hlive by reflexivity.
  destruct (add_saturates_and_costs_one m [5] 127 1 Hsp Hlive)
    as (_ & _ & _ & _ & _ & Hl & _ & Hc & _).
  exact (conj Hsp (conj Hlive (conj Hl Hc))).
Defined.

(** The ledger is a 64-bit counter: from its largest value the increment
    of [add8] wraps to zero. *)
Example add8_ledger_wraps :
  landauer (snd (add8 127 1 (mk_ledger (2 ^ 64 - 1)))) = 0.
Proof. reflexivity. Qed.

(* --------------------------------------------------------------------- *)
(** ** Operations on the whole machine                                    *)
(* --------------------------------------------------------------------- *)

Section Machine.

Lemma same_vm_refl (m : machine) : same_vm m m.
Proof. repeat split. Qed.

Lemma same_vm_trans (m1 m2 m3 : machine) :
  same_vm m1 m2 -> same_vm m2 m3 -> same_vm m1 m3.
Proof.
  intros (a & b & c & d) (a' & b' & c' & d').
  repeat split; congruence.
Qed.

Lemma store_text_same_vm (i : Z) (t : string) (m : machine) :
  same_vm m (store_text i t m).
Proof.
  unfold store_text. destruct (arena m !! Z.to_nat i); repeat split.
Qed.

Lemma jit_line_same_vm (i : Z) (m : machine) : same_vm m (jit_line i m).
Proof.
  unfold jit_line. destruct (arena m !! Z.to_nat i); repeat split.
Qed.

Lemma jit_loop_same_vm (idx : list Z) (m : machine) :
  same_vm m (foldl (fun acc i => jit_line i acc) m idx).
Proof.
  revert m. induction idx as [|i idx IH]; intros m; cbn.
  - apply same_vm_refl.
  - eapply same_vm_trans; [apply (jit_line_same_vm i)|apply IH].
Qed.

(** The arena after compiling the slots [0 .. n-1] in turn. *)
Lemma jit_loop_arena (n : nat) (m : machine) :
  arena (foldl (fun acc i => jit_line i acc) m (seqZ 0 (Z.of_nat n)))
  = imap (fun j L => if (j <? n)%nat then jit_record L else L) (arena m).
Proof.
  induction n as [|n IH].
  - change (seqZ 0 (Z.of_nat 0)) with (@nil Z). cbn [foldl].
    apply list_eq. intros j. rewrite list_lookup_imap.
    destruct (arena m !! j); reflexivity.
  - rewrite seqZ_S, foldl_app. cbn [foldl].
    set (acc := foldl _ m (seqZ 0 (Z.of_nat n))) in *.
    replace (Z.to_nat (0 + Z.of_nat n)) with n
      in * by lia.
    unfold jit_line. replace (Z.to_nat (0 + Z.of_nat n)) with n by lia.
    rewrite IH, list_lookup_imap.
    destruct (arena m !! n) as [L|] eqn:HL;
      cbn [fmap option_fmap option_map arena set_arena].
    + rewrite Nat.ltb_irrefl. apply list_eq. intros j.
      rewrite list_lookup_insert, length_imap, !list_lookup_imap.
      destruct (decide (n = j /\ (n < length (arena m))%nat)) as [[<- _]|Hne].
      * rewrite HL. cbn [fmap option_fmap option_map].
        destruct (Nat.ltb_spec n (S n)); [reflexivity | lia].
      * assert (n <> j) as Hnj.
        { intros <-. apply Hne. split; [reflexivity|].
          eapply lookup_lt_Some, HL. }
        destruct (arena m !! j); cbn [fmap option_fmap option_map];
          [|reflexivity].
        destruct (Nat.ltb_spec j n), (Nat.ltb_spec j (S n));
          try reflexivity; lia.
    + rewrite IH. apply list_eq. intros j. rewrite !list_lookup_imap.
      destruct (arena m !! j) as [Lj|] eqn:Hj;
        cbn [fmap option_fmap option_map]; [|reflexivity].
      assert (j <> n) by congruence.
      apply lookup_lt_Some in Hj. apply lookup_ge_None in HL.
      destruct (Nat.ltb_spec j n), (Nat.ltb_spec j (S n));
        try reflexivity; lia.
Qed.

Lemma patch_vm_arena (m : machine) (j : nat) :
  arena (patch_vm m) !! j
  = (fun L => if Z.of_nat j <=? last_line m then jit_record L else L)
      <$> arena m !! j.
Proof.
  unfold patch_vm, vm_reset, set_sp. cbn [last_line].
  destruct (Z.lt_ge_cases (last_line m + 1) 0) as [Hneg|Hpos].
  - replace (seqZ 0 (last_line m + 1)) with (@nil Z)
      by (unfold seqZ; replace (Z.to_nat (last_line m + 1)) with 0%nat by lia;
          reflexivity).
    cbn [foldl arena].
    destruct (arena m !! j); cbn [fmap option_fmap option_map]; [|reflexivity].
    destruct (Z.leb_spec (Z.of_nat j) (last_line m)); [lia | reflexivity].
  - rewrite <- (Z2Nat.id (last_line m + 1)) by lia.
    rewrite jit_loop_arena, list_lookup_imap. cbn [arena].
    destruct (arena m !! j); cbn [fmap option_fmap option_map]; [|reflexivity].
    destruct (Nat.ltb_spec j (Z.to_nat (last_line m + 1))),
             (Z.leb_spec (Z.of_nat j) (last_line m)); try reflexivity; lia.
Qed.

Lemma run_slot_arena (i : Z) (m : machine) :
  arena (run_slot i m) = arena m /\ last_line (run_slot i m) = last_line m.
Proof.
  unfold run_slot. destruct (arena m !! Z.to_nat i); [|auto].
  apply vm_exec_arena.
Qed.



Lemma set_text_wf (L : line_t) (t : string) : line_wf L -> line_wf (set_text L t).
Proof. intros H. exact H. Qed.

Lemma store_text_wf (i : Z) (t : string) (m : machine) :
  arena_wf m -> arena_wf (store_text i t m).
Proof.
  unfold arena_wf, store_text. intros H.
  destruct (arena m !! Z.to_nat i) as [L|] eqn:HL; [|exact H].
  cbn. apply Forall_insert; [exact H|].
  apply set_text_wf. eapply Forall_lookup_1; eauto.
Qed.

Lemma jit_line_wf (i : Z) (m : machine) : arena_wf m -> arena_wf (jit_line i m).
Proof.
  unfold arena_wf, jit_line. intros H.
  destruct (arena m !! Z.to_nat i) as [L|] eqn:HL; [|exact H].
  cbn. apply Forall_insert; [exact H|].
  apply jit_record_wf. eapply Forall_lookup_1; eauto.
Qed.

Lemma jit_loop_wf (idx : list Z) (m : machine) :
  arena_wf m -> arena_wf (foldl (fun acc i => jit_line i acc) m idx).
Proof.
  revert m. induction idx as [|i idx IH]; intros m H; cbn; [exact H|].
  apply IH, jit_line_wf, H.
Qed.

Lemma step_wf (m m' : machine) : step m m' -> arena_wf m -> arena_wf m'.
Proof.
  intros Hstep H. destruct Hstep as [i t m|i m|m|i m|t m].
  - apply store_text_wf, H.
  - apply jit_line_wf, H.
  - unfold patch_vm. apply jit_loop_wf. exact H.
  - unfold arena_wf. destruct (run_slot_arena i m) as [-> _]. exact H.
  - unfold repl_turn, arena_wf. cbn [arena set_last_line].
    destruct (run_slot_arena (last_line m)
                (jit_line (last_line m)
                   (store_text (last_line m)
                      (substring 0 (Z.to_nat (LINE_SZ - 1)) t) m)))
      as [-> _].
    apply jit_line_wf, store_text_wf, H.
Qed.

Lemma init_wf : arena_wf init.
Proof.
  unfold arena_wf, init. cbn [arena]. apply Forall_replicate.
  split; [apply length_replicate | cbn; unfold BC_SZ; lia].
Qed.

Lemma reachable_wf (m : machine) : reachable m -> arena_wf m.
Proof.
  induction 1 as [|m m' _ IH Hstep]; [apply init_wf|].
  eapply step_wf; eauto.
Qed.

End Machine.

(** C9. [code_len <= C_code] is an invariant: it holds in the zeroed
    initial state and after every operation (text store, [jit_line],
    [patch_vm], [vm_run_line], a turn of the read loop), for every slot
    and whatever texts were compiled; the buffer array keeps its 128
    cells. *)
Theorem code_len_within_capacity (m : machine) :
  reachable m ->
  forall (i : nat) (L : line_t),
    arena m !! i = Some L ->
    0 <= bc_len L <= BC_SZ /\ length (bc L) = Z.to_nat BC_SZ /\
    length (live_code L) = Z.to_nat (bc_len L).
Proof.
  intros Hr i L HL.
  pose proof (Forall_lookup_1 _ _ _ _ (reachable_wf m Hr) HL) as Hwf.
  pose proof (live_code_length L Hwf) as Hlive.
  destruct Hwf as [Hlen Hn]. auto.
Qed.

Lemma code_len_within_capacity_witness :
  let m := repl_turn "add quine" init in
  let L := jit_record (set_text blank_line "add quine") in
  reachable m /\
  arena m !! 0%nat = Some L /\
  0 <= bc_len L <= BC_SZ /\ length (bc L) = Z.to_nat BC_SZ /\
  length (live_code L) = Z.to_nat (bc_len L).
Proof.
  intros m L.
  assert (reachable m) as Hr
    by (apply (reach_step init); [apply reach_init | apply step_repl]).
  assert (arena m !! 0%nat = Some L) as HL by (vm_compute; reflexivity).
  exact (conj Hr (conj HL (code_len_within_capacity m Hr 0%nat L HL))).
Defined.

Section Reset.


Lemma patch_vm_same_stack (m : machine) :
  sp (patch_vm m) = 0 /\ stack (patch_vm m) = stack m /\
  ledger (patch_vm m) = ledger m /\ last_line (patch_vm m) = last_line m.
Proof.
  unfold patch_vm.
  destruct (jit_loop_same_vm (seqZ 0 (last_line (vm_reset m) + 1)) (vm_reset m))
    as (-> & -> & -> & ->).
  repeat split.
Qed.

(** From the zeroed machine the stack pointer is 0 in every state, and
    the stack is never written. *)
Lemma reachable_empty_stack (m : machine) :
  reachable m -> sp m = 0 /\ stack m = stack init.
Proof.
  induction 1 as [|m m' _ [IHs IHk] Hstep]; [split; reflexivity|].
  destruct Hstep as [i t m|i m|m|i m|t m].
  - destruct (store_text_same_vm i t m) as (-> & -> & _). auto.
  - destruct (jit_line_same_vm i m) as (-> & -> & _). auto.
  - destruct (patch_vm_same_stack m) as (-> & -> & _). auto.
  - unfold run_slot. destruct (arena m !! Z.to_nat i) as [L|]; [|auto].
    destruct (vm_exec_empty_stack (live_code L) m IHs) as (Hs & Hk & _).
    unfold vm_run_line. rewrite Hs, Hk. auto.
  - unfold repl_turn. cbn [sp stack set_last_line].
    set (t' := substring 0 (Z.to_nat (LINE_SZ - 1)) t).
    set (m2 := jit_line (last_line m) (store_text (last_line m) t' m)).
    assert (sp m2 = 0 /\ stack m2 = stack init) as [Hs2 Hk2].
    { subst m2.
      destruct (jit_line_same_vm (last_line m)
                  (store_text (last_line m) t' m)) as (-> & -> & _).
      destruct (store_text_same_vm (last_line m) t' m) as (-> & -> & _).
      auto. }
    unfold run_slot. destruct (arena m2 !! Z.to_nat (last_line m)) as [L|];
      [|auto].
    destruct (vm_exec_empty_stack (live_code L) m2 Hs2) as (Hs & Hk & _).
    unfold vm_run_line. rewrite Hs, Hk. auto.
Qed.

End Reset.

(** C4. No opcode at all, hence none the compiler emits (it emits only
    ADD and MOMENT), raises the stack pointer: after [vm_run_line] it is
    at most what it was.  From the empty stack the pointer stays 0, the
    stack is untouched, and every instruction that is executed, every ADD
    among them, finds [sp = 0]: each executed ADD takes the underflow
    exit and changes nothing, so no addition is ever performed. *)
Theorem compiled_code_never_grows_stack :
  (forall op m, sp (fst (vm_step op m)) <= sp m) /\
  (forall L, length (bc L) = Z.to_nat BC_SZ -> jit_cache_hit L = false ->
     Forall (fun op => op = OP_POSIT_ADD \/ op = OP_QUINE_MOMENT)
            (live_code (jit_record L))) /\
  (forall L m, sp (vm_run_line L m) <= sp m) /\
  (forall L m, sp m = 0 ->
     sp (vm_run_line L m) = 0 /\
     stack (vm_run_line L m) = stack m /\
     Forall (fun e => sp (snd e) = 0 /\
                      (fst e = OP_POSIT_ADD ->
                       vm_step (fst e) (snd e) = (snd e, false)))
            (vm_trace (live_code L) m)) /\
  (forall m, reachable m -> sp m = 0 /\ stack m = stack init).
Proof.
  refine (conj vm_step_sp_le (conj _ (conj _ (conj _ reachable_empty_stack)))).
  - intros L Hlen Hmiss.
    destruct (jit_record_miss_live L Hlen Hmiss) as [-> _].
    apply Forall_take, tokenize_opcodes.
  - intros L m. apply vm_exec_sp_le.
  - intros L m H0. unfold vm_run_line.
    destruct (vm_exec_empty_stack (live_code L) m H0) as (Hs & Hk & Ht).
    refine (conj Hs (conj Hk _)).
    eapply Forall_impl; [exact Ht|].
    intros [op s] Hsp. cbn in *. split; [exact Hsp|].
    intros ->. apply vm_step_add_underflow. lia.
Qed.

Lemma compiled_code_never_grows_stack_witness :
  let L := jit_record (set_text blank_line "quine add quine") in
  sp init = 0 /\
  sp (vm_run_line L init) = 0 /\
  stack (vm_run_line L init) = stack init /\
  landauer (ledger (vm_run_line L init)) = 1.
Proof.
  intros L.
  destruct (proj1 (proj2 (proj2 (proj2 compiled_code_never_grows_stack)))
              L init eq_refl) as (Hs & Hk & _).
  refine (conj eq_refl (conj Hs (conj Hk _))).
  vm_compute. reflexivity.
Defined.

(* ===================================================================== *)
(** * Further properties of the code                                      *)
(* ===================================================================== *)

(* --------------------------------------------------------------------- *)
(** ** The codec on the whole grid of the format                          *)
(* --------------------------------------------------------------------- *)

Section Grid.

(** Checking a predicate on every pair of bytes. *)
Lemma forallb_bytes2 (f : Z -> Z -> bool) :
  forallb (fun a => forallb (f a) (seqZ 0 256)) (seqZ 0 256) = true ->
  forall a b, f (u8 a) (u8 b) = true.
Proof.
  intros H a b.
  pose proof (forallb_seqZ _ _ _ H (u8 a) ltac:(pose proof (u8_range a); lia))
    as Ha.
  cbv beta in Ha.
  exact (forallb_seqZ _ _ _ Ha (u8 b) ltac:(pose proof (u8_range b); lia)).
Qed.

Lemma all_from_spec (f : Z -> bool) (n : nat) (a : Z) :
  all_from n a f = true ->
  forall k, a <= k < a + Z.of_nat n -> f k = true.
Proof.
  revert a. induction n as [|n IH]; intros a H k Hk; [lia|].
  cbn [all_from] in H. apply andb_prop in H as [Ha H].
  destruct (Z.eq_dec k a) as [->|Hne]; [exact Ha|].
  apply (IH (a + 1) H). lia.
Qed.

Lemma decode8_u8 (p : Z) : decode8 (u8 p) = decode8 p.
Proof. unfold decode8. rewrite s8_u8. reflexivity. Qed.

Lemma add8_u8 (a b : Z) (l : ledger_t) : add8 (u8 a) (u8 b) l = add8 a b l.
Proof. unfold add8. rewrite !s8_u8. reflexivity. Qed.

Lemma add8_byte_any_ledger (a b : Z) (l : ledger_t) :
  fst (add8 a b l) = add8_byte a b.
Proof. reflexivity. Qed.

End Grid.

(** X1. On the non-negative half of the format the codec is exact in
    both directions: for [0 <= k <= 127] the value [k/16] is encoded as
    the byte [k], decoding gives [k/16] back, and encoding the decoded
    byte [k] gives [k] again. *)
Theorem codec_exact_on_nonnegative (k : Z) :
  0 <= k <= 127 ->
  encode8 (sixteenth k) = Some k /\
  roundtrip_ok (sixteenth k) = true /\
  encode8 (decode8 k) = Some k.
Proof.
  intros Hk.
  assert (forallb (fun k =>
            match encode8 (sixteenth k), encode8 (decode8 k) with
            | Some p, Some q =>
                (p =? k) && (q =? k) && roundtrip_ok (sixteenth k)
            | _, _ => false
            end) (seqZ 0 128) = true) as H by (vm_compute; reflexivity).
  pose proof (forallb_seqZ _ _ _ H k ltac:(lia)) as Hq. cbv beta in Hq.
  destruct (encode8 (sixteenth k)) as [p|]; [|discriminate].
  destruct (encode8 (decode8 k)) as [q|]; [|discriminate].
  apply andb_prop in Hq as [Hq Hr]. apply andb_prop in Hq as [Hp Hq].
  apply Z.eqb_eq in Hp, Hq. subst. auto.
Qed.

Lemma codec_exact_on_nonnegative_witness :
  0 <= 37 <= 127 /\
  encode8 (sixteenth 37) = Some 37 /\
  roundtrip_ok (sixteenth 37) = true /\
  encode8 (decode8 37) = Some 37.
Proof.
  assert (0 <= 37 <= 127) as H by lia.
  exact (conj H (codec_exact_on_nonnegative 37 H)).
Defined.

(** X2. On the negative half the encoder is one step high: for
    [-128 <= k <= -1] the value [k/16] is stored as the signed byte
    [k + 1] (the truncation of [k + 0.5] toward zero), so that decoding
    gives [(k+1)/16] and not [k/16]. *)
Theorem encode8_one_step_high_on_negative (k : Z) :
  -128 <= k <= -1 ->
  option_map s8 (encode8 (sixteenth k)) = Some (k + 1) /\
  option_map decode8 (encode8 (sixteenth k)) = Some (sixteenth (k + 1)) /\
  roundtrip_ok (sixteenth k) = false.
Proof.
  intros Hk.
  assert (forallb (fun k =>
            match encode8 (sixteenth k) with
            | Some p => (s8 p =? k + 1)
                        && (decode8 p =? sixteenth (k + 1))%float
                        && negb (roundtrip_ok (sixteenth k))
            | None => false
            end) (seqZ (-128) 128) = true) as H by (vm_compute; reflexivity).
  pose proof (forallb_seqZ _ _ _ H k ltac:(lia)) as Hq. cbv beta in Hq.
  destruct (encode8 (sixteenth k)) as [p|] eqn:Hp; [|discriminate].
  apply andb_prop in Hq as [Hq Hr]. apply andb_prop in Hq as [Hs Hd].
  apply Z.eqb_eq in Hs. apply negb_true_iff in Hr.
  cbn [option_map]. refine (conj _ (conj _ Hr)).
  - congruence.
  - unfold decode8, sixteenth. rewrite Hs. reflexivity.
Qed.

Lemma encode8_one_step_high_on_negative_witness :
  -128 <= -128 <= -1 /\
  option_map s8 (encode8 (sixteenth (-128))) = Some (-128 + 1) /\
  option_map decode8 (encode8 (sixteenth (-128)))
  = Some (sixteenth (-128 + 1)) /\
  roundtrip_ok (sixteenth (-128)) = false.
Proof.
  assert (-128 <= -128 <= -1) as H by lia.
  exact (conj H (encode8_one_step_high_on_negative (-128) H)).
Defined.

(** X3. Out-of-range input saturates silently: every multiple [k/16]
    with [127 <= k <= 4095] (values from 7.9375 up to just under 256) is
    encoded as 127 (the byte 0x7F), and every one with
    [-4096 <= k <= -129] (values from -256 up to just under -8) as -128
    (the byte 0x80). *)
Theorem encode8_saturates (k : Z) :
  (127 <= k <= 4095 -> encode8 (sixteenth k) = Some 127) /\
  (-4096 <= k <= -129 ->
   encode8 (sixteenth k) = Some 128 /\ s8 128 = -128).
Proof.
  split.
  - intros Hk.
    assert (all_from (Z.to_nat 3969) 127
              (fun k => match encode8 (sixteenth k) with
                        | Some p => p =? 127
                        | None => false
                        end) = true) as H
      by (vm_compute; reflexivity).
    pose proof (all_from_spec _ _ _ H k ltac:(lia)) as Hq. cbv beta in Hq.
    destruct (encode8 (sixteenth k)); [|discriminate].
    apply Z.eqb_eq in Hq. congruence.
  - intros Hk. split; [|reflexivity].
    assert (all_from (Z.to_nat 3968) (-4096)
              (fun k => match encode8 (sixteenth k) with
                        | Some p => p =? 128
                        | None => false
                        end) = true) as H
      by (vm_compute; reflexivity).
    pose proof (all_from_spec _ _ _ H k ltac:(lia)) as Hq. cbv beta in Hq.
    destruct (encode8 (sixteenth k)); [|discriminate].
    apply Z.eqb_eq in Hq. congruence.
Qed.

Lemma encode8_saturates_witness :
  127 <= 1600 <= 4095 /\ encode8 (sixteenth 1600) = Some 127 /\
  -4096 <= -1600 <= -129 /\ encode8 (sixteenth (-1600)) = Some 128.
Proof.
  assert (127 <= 1600 <= 4095) as H1 by lia.
  assert (-4096 <= -1600 <= -129) as H2 by lia.
  exact (conj H1 (conj (proj1 (encode8_saturates 1600) H1)
          (conj H2 (proj1 (proj2 (encode8_saturates (-1600)) H2))))).
Defined.

(** X4. [decode8] depends only on the low byte of its argument, lands in
    [-8, 7.9375], and preserves the order of the signed bytes: it is
    strictly increasing in [(int8_t)p], hence injective on bytes. *)
Theorem decode8_monotone (p q : Z) :
  (-8 <=? decode8 p)%float = true /\
  (decode8 p <=? 7.9375)%float = true /\
  (decode8 p <? decode8 q)%float = (s8 p <? s8 q).
Proof.
  assert (forallb (fun a => forallb (fun b =>
            (-8 <=? decode8 a)%float && (decode8 a <=? 7.9375)%float
            && Bool.eqb (decode8 a <? decode8 b)%float (s8 a <? s8 b))
            (seqZ 0 256)) (seqZ 0 256) = true) as H
    by (vm_compute; reflexivity).
  pose proof (forallb_bytes2 _ H p q) as Hq. cbv beta in Hq.
  rewrite !decode8_u8, !s8_u8 in Hq.
  apply andb_prop in Hq as [Hq Ho]. apply andb_prop in Hq as [Hlo Hhi].
  apply Bool.eqb_prop in Ho. auto.
Qed.

(** X5. [add8] is saturating addition of the decoded values: for all
    operands, the result decodes to the sum of the decoded operands
    clamped to [-8, 7.9375]. *)
Theorem add8_adds_decoded_values (a b : Z) (l : ledger_t) :
  (decode8 (fst (add8 a b l)) =? fclamp (decode8 a + decode8 b))%float = true.
Proof.
  assert (forallb (fun a => forallb (fun b =>
            (decode8 (add8_byte a b) =? fclamp (decode8 a + decode8 b))%float)
            (seqZ 0 256)) (seqZ 0 256) = true) as H
    by (vm_compute; reflexivity).
  pose proof (forallb_bytes2 _ H a b) as Hq. cbv beta in Hq.
  rewrite !decode8_u8 in Hq.
  rewrite add8_byte_any_ledger. unfold add8_byte.
  rewrite <- (add8_u8 a b (mk_ledger 0)). exact Hq.
Qed.

(* --------------------------------------------------------------------- *)
(** ** Algebra of the saturating addition                                 *)
(* --------------------------------------------------------------------- *)

Lemma u8_s8 (x : Z) : u8 (s8 x) = u8 x.
Proof.
  unfold u8, s8. destruct (x mod 256 <? 128).
  - apply Z.mod_mod. lia.
  - rewrite <- (Z.mod_add (x mod 256 - 256) 1 256) by lia.
    replace (x mod 256 - 256 + 1 * 256) with (x mod 256) by lia.
    apply Z.mod_mod. lia.
Qed.

(** X6. [add8] is commutative, has the byte 0 as neutral element, and is
    monotone in each operand (for the signed reading of the bytes). *)
Theorem add8_commutative_monotone (a b c : Z) :
  add8_byte a b = add8_byte b a /\
  add8_byte a 0 = u8 a /\
  (s8 a <= s8 c -> s8 (add8_byte a b) <= s8 (add8_byte c b)).
Proof.
  destruct (add8_value a b (mk_ledger 0)) as (Hab & Sab & _).
  destruct (add8_value b a (mk_ledger 0)) as (Hba & _ & _).
  destruct (add8_value c b (mk_ledger 0)) as (_ & Scb & _).
  destruct (add8_value a 0 (mk_ledger 0)) as (Ha0 & _ & _).
  unfold add8_byte. refine (conj _ (conj _ _)).
  - rewrite Hab, Hba, Z.add_comm. reflexivity.
  - rewrite Ha0. change (s8 0) with 0. rewrite Z.add_0_r.
    pose proof (s8_range a) as Hr. unfold clamp8.
    destruct (Z.gtb_spec (s8 a) 127); [lia|].
    destruct (Z.ltb_spec (s8 a) (-128)); [lia|]. apply u8_s8.
  - intros Hle. rewrite Sab, Scb. lia.
Qed.

Lemma add8_commutative_monotone_witness :
  s8 250 <= s8 100 /\
  add8_byte 250 100 = add8_byte 100 250 /\
  s8 (add8_byte 250 100) <= s8 (add8_byte 100 100).
Proof.
  assert (s8 250 <= s8 100) as H by (vm_compute; discriminate).
  destruct (add8_commutative_monotone 250 100 100) as (Hc & _ & Hm).
  exact (conj H (conj Hc (Hm H))).
Defined.

(* --------------------------------------------------------------------- *)
(** ** Runs of the VM                                                     *)
(* --------------------------------------------------------------------- *)

(** Case analysis on what [vm_step op m] does, rewriting it in the goal. *)
Ltac vm_step_split op m :=
  destruct (Z.eq_dec op OP_POSIT_ADD) as [->|?];
  [ destruct (Z.lt_ge_cases (sp m) 2);
    [ rewrite (vm_step_add_underflow m) by assumption
    | rewrite (vm_step_add m) by assumption ]
  | destruct (Z.eq_dec op OP_QUINE_MOMENT) as [->|?];
    [ rewrite (vm_step_moment m)
    | rewrite (vm_step_other op m) by assumption ] ].

Section Runs.

Lemma rd_wr_ne (a : list Z) (i j v : Z) :
  0 <= j -> j < i -> rd (wr a j v) i = rd a i.
Proof.
  intros Hj Hi. unfold rd, wr.
  rewrite list_lookup_insert_ne by lia. reflexivity.
Qed.

Lemma vm_exec_safe (code : list Z) (m : machine) :
  length (stack (vm_exec code m)) = length (stack m) /\
  Z.min 1 (sp m) <= sp (vm_exec code m) <= sp m /\
  sp m - Z.of_nat (length code) <= sp (vm_exec code m) /\
  (forall i, sp m - 1 <= i -> rd (stack (vm_exec code m)) i = rd (stack m) i).
Proof.
  revert m. induction code as [|op rest IH]; intros m; cbn [vm_exec length].
  - repeat split; lia.
  - vm_step_split op m; cbn [fst snd];
      try (repeat split; lia).
    + destruct (IH (mk_machine (arena m) (last_line m)
                      (ledger_tick (ledger m))
                      (wr (stack m) (sp m - 2)
                          (fst (add8 (rd (stack m) (sp m - 2))
                                     (rd (stack m) (sp m - 1)) (ledger m))))
                      (sp m - 1))) as (Hlen & Hsp & Hlow & Hcell).
      cbn [stack sp] in *. unfold wr in Hlen. rewrite length_insert in Hlen.
      refine (conj Hlen (conj _ (conj _ _))); try lia.
      intros i Hi. rewrite Hcell by lia. apply rd_wr_ne; lia.
    + destruct (IH (set_ledger m (ledger_tick (ledger m))))
        as (Hlen & Hsp & Hlow & Hcell).
      cbn [stack sp set_ledger] in *.
      refine (conj Hlen (conj _ (conj _ Hcell))); lia.
Qed.

Lemma wrap64_succ (x : Z) (k : nat) :
  wrap64 (wrap64 (x + 1) + Z.of_nat k) = wrap64 (x + Z.of_nat (S k)).
Proof.
  unfold wrap64. rewrite Z.add_mod_idemp_l by lia. f_equal. lia.
Qed.

Lemma vm_exec_ticks (code : list Z) (m : machine) :
  0 <= landauer (ledger m) < 2 ^ 64 ->
  landauer (ledger (vm_exec code m))
  = wrap64 (landauer (ledger m) + Z.of_nat (vm_ticks code m)) /\
  (vm_ticks code m <= length code)%nat.
Proof.
  assert (forall x, 0 <= wrap64 x < 2 ^ 64) as Hw
    by (intros x; unfold wrap64; apply Z.mod_pos_bound; lia).
  assert (forall x, 0 <= x < 2 ^ 64 -> wrap64 (x + Z.of_nat 0) = x) as Hz
    by (intros x Hx; unfold wrap64; rewrite Z.add_0_r; apply Z.mod_small, Hx).
  revert m. induction code as [|op rest IH]; intros m Hl;
    cbn [vm_exec vm_ticks length].
  - rewrite Hz by exact Hl. split; [reflexivity | lia].
  - vm_step_split op m; cbn [fst snd];
      try (rewrite Hz by exact Hl; split; [reflexivity | lia]).
    + match goal with |- context [vm_exec rest ?m1] =>
        destruct (IH m1 (Hw _)) as [E Hn] end.
      cbn [ledger landauer ledger_tick] in E. rewrite E, wrap64_succ.
      split; [reflexivity | lia].
    + destruct (IH (set_ledger m (ledger_tick (ledger m))) (Hw _)) as [E Hn].
      cbn [ledger landauer ledger_tick set_ledger] in E.
      rewrite E, wrap64_succ. split; [reflexivity | lia].
Qed.

End Runs.

(** X7. [vm_run_line] is memory-safe and read-only on the corpus: it
    leaves the arena and [last_line] alone, keeps the size of the stack
    array, never raises the stack pointer and lowers it by at most one
    per instruction, never empties a non-empty stack, and never writes a
    stack cell at index [sp - 1] or above. *)
Theorem vm_run_line_stays_in_bounds (L : line_t) (m : machine) :
  let m' := vm_run_line L m in
  arena m' = arena m /\ last_line m' = last_line m /\
  length (stack m') = length (stack m) /\
  Z.min 1 (sp m) <= sp m' <= sp m /\
  sp m - Z.of_nat (length (live_code L)) <= sp m' /\
  (forall i, sp m - 1 <= i -> rd (stack m') i = rd (stack m) i).
Proof.
  unfold vm_run_line. cbv zeta.
  destruct (vm_exec_arena (live_code L) m) as [Ha Hl].
  destruct (vm_exec_safe (live_code L) m) as (Hlen & Hsp & Hlow & Hcell).
  auto 10.
Qed.

(** X8. The ledger counts the completed instructions: after a run it has
    advanced (as a 64-bit counter) by the number of instructions that
    returned "continue"; the instruction that aborts costs nothing, and a
    well-formed line costs at most 128. *)
Theorem ledger_counts_completed_instructions (L : line_t) (m : machine) :
  0 <= landauer (ledger m) < 2 ^ 64 ->
  line_wf L ->
  landauer (ledger (vm_run_line L m))
  = wrap64 (landauer (ledger m) + Z.of_nat (vm_ticks (live_code L) m)) /\
  (vm_ticks (live_code L) m <= length (live_code L))%nat /\
  (vm_ticks (live_code L) m <= 128)%nat.
Proof.
  intros Hl HL. unfold vm_run_line.
  destruct (vm_exec_ticks (live_code L) m Hl) as [E Hn].
  pose proof (live_code_length L HL) as Hlen. destruct HL as [_ Hb].
  unfold BC_SZ in Hb. refine (conj E (conj Hn _)). lia.
Qed.

Lemma ledger_counts_completed_instructions_witness :
  let L := jit_record (set_text blank_line "quine quine add quine") in
  let m := set_ledger init (mk_ledger (2 ^ 64 - 1)) in
  0 <= landauer (ledger m) < 2 ^ 64 /\
  line_wf L /\
  vm_ticks (live_code L) m = 2%nat /\
  landauer (ledger (vm_run_line L m)) = 1.
Proof.
  intros L m.
  assert (0 <= landauer (ledger m) < 2 ^ 64) as Hl
    by (split; vm_compute; [discriminate | reflexivity]).
  assert (line_wf L) as HL
    by (split; [vm_compute; reflexivity
               | split; vm_compute; discriminate]).
  destruct (ledger_counts_completed_instructions L m Hl HL) as (E & _ & _).
  refine (conj Hl (conj HL (conj _ _))).
  - vm_compute. reflexivity.
  - rewrite E. vm_compute. reflexivity.
Defined.

Section Folding.

Lemma vm_exec_add_step (rest : list Z) (m : machine)
      (base : list Z) (second top : Z) :
  sp m <= Z.of_nat (length (stack m)) ->
  live_stack m = base ++ [second; top] ->
  exists m1,
    vm_exec (OP_POSIT_ADD :: rest) m = vm_exec rest m1 /\
    vm_ticks (OP_POSIT_ADD :: rest) m = S (vm_ticks rest m1) /\
    sp m1 = sp m - 1 /\
    length (stack m1) = length (stack m) /\
    live_stack m1 = base ++ [add8_byte second top].
Proof.
  intros Hsp Hlive.
  destruct (live_stack_top2 m base second top Hsp Hlive)
    as (Hz & Hsecond & Htop & Htake).
  eexists. cbn [vm_exec vm_ticks]. rewrite vm_step_add by lia.
  refine (conj eq_refl (conj eq_refl (conj eq_refl (conj _ _)))).
  - cbn [stack]. unfold wr. apply length_insert.
  - unfold live_stack. cbn [sp stack]. rewrite Htake, Hsecond, Htop.
    reflexivity.
Qed.

Lemma vm_exec_adds (xs : list Z) :
  forall (m : machine) (base : list Z) (top : Z),
    sp m <= Z.of_nat (length (stack m)) ->
    live_stack m = base ++ xs ++ [top] ->
    let code := replicate (length xs) OP_POSIT_ADD in
    live_stack (vm_exec code m) = base ++ [foldr add8_byte top xs] /\
    sp (vm_exec code m) = sp m - Z.of_nat (length xs) /\
    vm_ticks code m = length xs.
Proof.
  induction xs as [|x xs IH] using rev_ind; intros m base top Hsp Hlive code.
  - subst code. cbn. rewrite Z.sub_0_r. auto.
  - subst code. rewrite length_app, Nat.add_comm. cbn [length Nat.add replicate].
    rewrite <- app_assoc in Hlive. cbn [app] in Hlive.
    rewrite app_assoc in Hlive.
    destruct (vm_exec_add_step (replicate (length xs) OP_POSIT_ADD) m
                (base ++ xs) x top Hsp Hlive)
      as (m1 & -> & -> & Hsp1 & Hlen1 & Hlive1).
    rewrite <- app_assoc in Hlive1.
    destruct (IH m1 base (add8_byte x top) ltac:(lia) Hlive1)
      as (Hl & Hs & Ht).
    rewrite foldr_app. cbn [foldr].
    refine (conj Hl (conj _ _)); lia.
Qed.

End Folding.

(** X9. A buffer of [n] ADD instructions folds the top [n + 1] values of
    the stack into one, from the top downwards: on a live stack
    [base ++ xs ++ [top]] with [n = length xs] it leaves
    [base ++ [x1 + (x2 + ... (xn + top))]] (saturating at every step),
    lowers the stack pointer by [n], and every instruction completes. *)
Theorem adds_fold_the_stack
  (m : machine) (base xs : list Z) (top : Z) :
  sp m <= Z.of_nat (length (stack m)) ->
  live_stack m = base ++ xs ++ [top] ->
  let code := replicate (length xs) OP_POSIT_ADD in
  live_stack (vm_exec code m) = base ++ [foldr add8_byte top xs] /\
  sp (vm_exec code m) = sp m - Z.of_nat (length xs) /\
  vm_ticks code m = length xs.
Proof. apply vm_exec_adds. Qed.

Lemma adds_fold_the_stack_witness :
  let m := mk_machine (arena init) 0 (mk_ledger 0)
             (wr (wr (wr (wr (stack init) 0 9) 1 100) 2 100) 3 0xF0) 4 in
  sp m <= Z.of_nat (length (stack m)) /\
  live_stack m = [9] ++ [100; 100] ++ [0xF0] /\
  live_stack (vm_exec [OP_POSIT_ADD; OP_POSIT_ADD] m) = [9; 127].
Proof.
  intros m.
  assert (sp m <= Z.of_nat (length (stack m))) as Hsp
    by (vm_compute; discriminate).
  assert (live_stack m = [9] ++ [100; 100] ++ [0xF0]) as Hlive by reflexivity.
  destruct (adds_fold_the_stack m [9] [100; 100] 0xF0 Hsp Hlive) as (Hl & _).
  exact (conj Hsp (conj Hlive Hl)).
Defined.

Section EmptyStack.

Lemma set_ledger_same (m : machine) : set_ledger m (ledger m) = m.
Proof. destruct m; reflexivity. Qed.

Lemma vm_exec_from_empty (code : list Z) (m : machine) :
  sp m < 2 ->
  vm_exec code m
  = set_ledger m (Nat.iter (leading_moments code) ledger_tick (ledger m)) /\
  vm_ticks code m = leading_moments code.
Proof.
  revert m. induction code as [|op rest IH]; intros m H0;
    cbn [vm_exec vm_ticks leading_moments Nat.iter].
  - rewrite set_ledger_same. auto.
  - destruct (Z.eqb_spec op OP_QUINE_MOMENT) as [->|Hne].
    + rewrite vm_step_moment.
      destruct (IH (set_ledger m (ledger_tick (ledger m))) H0) as [-> ->].
      cbn [set_ledger ledger arena last_line stack sp].
      rewrite <- Nat.iter_succ_r. cbn [Nat.iter]. auto.
    + destruct (Z.eq_dec op OP_POSIT_ADD) as [->|Ha].
      * rewrite vm_step_add_underflow by exact H0.
        cbn [Nat.iter]. rewrite set_ledger_same. auto.
      * rewrite vm_step_other by assumption.
        cbn [Nat.iter]. rewrite set_ledger_same. auto.
Qed.

Lemma iter_ledger_tick (k : nat) (l : ledger_t) :
  0 <= landauer l < 2 ^ 64 ->
  landauer (Nat.iter k ledger_tick l) = wrap64 (landauer l + Z.of_nat k).
Proof.
  intros Hl. induction k as [|k IH].
  - cbn [Nat.iter nat_rect].
    unfold wrap64. rewrite Z.add_0_r, Z.mod_small; [reflexivity | exact Hl].
  - rewrite Nat.iter_succ.
    change (landauer (ledger_tick (Nat.iter k ledger_tick l)))
      with (wrap64 (landauer (Nat.iter k ledger_tick l) + 1)).
    rewrite IH.
    unfold wrap64. rewrite Z.add_mod_idemp_l by lia. f_equal. lia.
Qed.

End EmptyStack.

(** X10. With fewer than two live values on the stack (in particular on
    the empty stack the program always has) a run does exactly this: it
    ticks the ledger once for each MOMENT at the head of the buffer, and
    stops at the first other instruction; nothing else in the machine
    changes. *)
Theorem run_without_operands_counts_leading_moments
  (L : line_t) (m : machine) :
  sp m < 2 ->
  0 <= landauer (ledger m) < 2 ^ 64 ->
  let k := leading_moments (live_code L) in
  vm_run_line L m = set_ledger m (Nat.iter k ledger_tick (ledger m)) /\
  landauer (ledger (vm_run_line L m))
  = wrap64 (landauer (ledger m) + Z.of_nat k) /\
  vm_ticks (live_code L) m = k.
Proof.
  intros H0 Hl k. unfold vm_run_line.
  destruct (vm_exec_from_empty (live_code L) m H0) as [E Ht].
  refine (conj E (conj _ Ht)).
  rewrite E. cbn [ledger set_ledger]. apply iter_ledger_tick, Hl.
Qed.

Lemma run_without_operands_counts_leading_moments_witness :
  let L := jit_record (set_text blank_line "quine quine add quine") in
  sp init < 2 /\
  0 <= landauer (ledger init) < 2 ^ 64 /\
  leading_moments (live_code L) = 2%nat /\
  landauer (ledger (vm_run_line L init)) = wrap64 (0 + 2).
Proof.
  intros L.
  assert (sp init < 2) as H0 by reflexivity.
  assert (0 <= landauer (ledger init) < 2 ^ 64) as Hl
    by (split; vm_compute; [discriminate | reflexivity]).
  destruct (run_without_operands_counts_leading_moments L init H0 Hl)
    as (_ & E & _).
  refine (conj H0 (conj Hl (conj _ _))).
  - vm_compute. reflexivity.
  - rewrite E. vm_compute. reflexivity.
Defined.

(* --------------------------------------------------------------------- *)
(** ** The hash                                                           *)
(* --------------------------------------------------------------------- *)

Section Hash.

(** One round of the loop of [djb_hash]. *)
Lemma djb_round (h c : Z) :
  wrap32 (wrap32 (wrap32 (Z.shiftl h 5) + h) + c) = wrap32 (33 * h + c).
Proof.
  unfold wrap32. rewrite Z.shiftl_mul_pow2 by lia.
  rewrite Z.add_mod_idemp_l by lia. rewrite <- Z.add_assoc.
  rewrite Z.add_mod_idemp_l by lia.
  f_equal. lia.
Qed.

Lemma advance_succ (n : nat) (s : string) :
  advance n (advance 1 s) = advance (S n) s.
Proof.
  destruct s as [|c s]; cbn [advance]; [|reflexivity].
  destruct n; reflexivity.
Qed.

Lemma djb_loop_last (n : nat) :
  forall (s : string) (h : Z),
    djb_loop s (S n) h
    = wrap32 (33 * djb_loop s n h + byte_of (peek (advance n s))).
Proof.
  induction n as [|n IH]; intros s h.
  - cbn [djb_loop advance]. apply djb_round.
  - change (djb_loop s (S (S n)) h)
      with (djb_loop (advance 1 s) (S n)
              (wrap32 (wrap32 (wrap32 (Z.shiftl h 5) + h) + byte_of (peek s)))).
    rewrite IH, advance_succ. reflexivity.
Qed.

End Hash.

(** X11. [djb_hash] is the DJB2 recurrence in 32-bit arithmetic: it
    starts from 5381, each further byte [c] turns the hash [h] into
    [(33 * h + c) mod 2^32] (the shift-and-add of the code is the
    multiplication by 33), and the result is always a 32-bit value. *)
Theorem djb_hash_recurrence (s : string) (n : nat) :
  djb_hash s 0 = 5381 /\
  djb_hash s (S n)
  = wrap32 (33 * djb_hash s n + byte_of (peek (advance n s))) /\
  0 <= djb_hash s n < 2 ^ 32.
Proof.
  unfold djb_hash. refine (conj eq_refl (conj (djb_loop_last n s 5381) _)).
  destruct n as [|n].
  - cbn. lia.
  - rewrite djb_loop_last. unfold wrap32. apply Z.mod_pos_bound. lia.
Qed.

(* --------------------------------------------------------------------- *)
(** ** The tokenizer                                                      *)
(* --------------------------------------------------------------------- *)

Section Tokens.

Lemma tokenize_at_nul (p : string) :
  is_nul (peek p) = true -> tokenize p = [].
Proof. intros H. rewrite tokenize_eq, H. reflexivity. Qed.

Lemma skip_space_at_nul (p : string) :
  is_nul (peek p) = true -> skip_space p = p.
Proof.
  destruct p as [|c p]; [reflexivity|]. cbn [peek]. intros H.
  apply Ascii.eqb_eq in H. subst c. reflexivity.
Qed.

Lemma strncmp_at_nul (p kw : string) (n : nat) :
  is_nul (peek p) = true -> is_nul (peek kw) = false ->
  (strncmp p kw (S n) =? 0) = false.
Proof.
  intros Hp Hk. cbn [strncmp].
  apply Ascii.eqb_eq in Hp. rewrite Hp.
  unfold is_nul in Hk. rewrite Ascii.eqb_sym in Hk. rewrite Hk. cbn [negb].
  apply Z.eqb_neq. unfold byte_of. intros E.
  assert (N_of_ascii NUL = N_of_ascii (peek kw)) as E' by lia.
  apply (f_equal ascii_of_N) in E'. rewrite !ascii_N_embedding in E'.
  rewrite <- E', Ascii.eqb_refl in Hk. discriminate.
Qed.

(** A blank in front of the text changes nothing. *)
Lemma tokenize_blank (c : ascii) (p : string) :
  (Ascii.eqb c " "%char || Ascii.eqb c "009"%char) = true ->
  tokenize (String c p) = tokenize p.
Proof.
  intros Hc.
  assert (is_nul c = false) as Hn.
  { apply orb_prop in Hc as [H|H]; apply Ascii.eqb_eq in H; subst c;
      reflexivity. }
  rewrite (tokenize_eq (String c p)). cbn [peek skip_space].
  rewrite Hn, Hc.
  destruct (is_nul (peek p)) eqn:Hp.
  - rewrite (tokenize_at_nul p Hp), (skip_space_at_nul p Hp).
    rewrite (strncmp_at_nul p kw_add 2 Hp eq_refl).
    rewrite (strncmp_at_nul p kw_quine 4 Hp eq_refl). reflexivity.
  - rewrite (tokenize_eq p), Hp. reflexivity.
Qed.

Lemma tokenize_length (p : string) :
  (3 * length (tokenize p) <= String.length p)%nat.
Proof.
  funelim (tokenize p); cbn [length]; try lia.
  - pose proof (strncmp_0_length (skip_space p) kw_add eq_refl
                  (proj1 (Z.eqb_eq _ _) Hadd)) as H3.
    pose proof (skip_space_length p) as Hs.
    change (3 * length (tokenize (advance 3 (skip_space p)))
            <= String.length (advance 3 (skip_space p)))%nat in H.
    rewrite advance_length in H. cbn [String.length kw_add] in H3. lia.
  - pose proof (strncmp_0_length (skip_space p) kw_quine eq_refl
                  (proj1 (Z.eqb_eq _ _) Hquine)) as H5.
    pose proof (skip_space_length p) as Hs.
    change (3 * length (tokenize (advance 5 (skip_space p)))
            <= String.length (advance 5 (skip_space p)))%nat in H.
    rewrite advance_length in H. cbn [String.length kw_quine] in H5. lia.
Qed.

Lemma substring_length (n : nat) (s : string) :
  (String.length (substring 0 n s) <= n)%nat.
Proof.
  revert s. induction n as [|n IH]; intros [|c s]; cbn; try lia.
  specialize (IH s). lia.
Qed.

Lemma jit_record_short (L : line_t) :
  (String.length (text L) <= 255)%nat ->
  length (bc L) = Z.to_nat BC_SZ ->
  jit_cache_hit L = false ->
  live_code (jit_record L) = tokenize (text L) /\
  bc_len (jit_record L) = Z.of_nat (length (tokenize (text L))) /\
  bc_len (jit_record L) <= 85.
Proof.
  intros Ht Hlen Hmiss.
  pose proof (tokenize_length (text L)) as Hn.
  destruct (jit_record_miss_live L Hlen Hmiss) as [-> ->].
  unfold BC_SZ. refine (conj _ (conj _ _)); try lia.
  apply take_ge. lia.
Qed.

End Tokens.

(** X12. The tokenizer skips blanks (space, tab) in front of a token and
    recognises a keyword as a prefix of the text, whatever follows it:
    [add] followed by any text gives ADD and then the tokens of that
    text, and the same for [quine] and MOMENT; no separator is needed
    between keywords. *)
Theorem tokenize_blanks_and_prefixes (p : string) :
  tokenize (String " " p) = tokenize p /\
  tokenize (String "009" p) = tokenize p /\
  tokenize (kw_add ++ p) = OP_POSIT_ADD :: tokenize p /\
  tokenize (kw_quine ++ p) = OP_QUINE_MOMENT :: tokenize p.
Proof.
  refine (conj _ (conj _ (conj _ _))).
  - apply tokenize_blank. reflexivity.
  - apply tokenize_blank. reflexivity.
  - rewrite (tokenize_eq (kw_add ++ p)). reflexivity.
  - rewrite (tokenize_eq (kw_quine ++ p)). reflexivity.
Qed.

(** X13. A line that fits the text field never fills the instruction
    buffer: every token takes at least three characters, so a text of at
    most 255 characters (all that [fgets] stores) compiles to at most 85
    instructions, and a compile stores exactly the tokens of the text,
    none dropped by the capacity test of [emit_byte]. *)
Theorem line_text_never_fills_buffer (L : line_t) :
  (String.length (text L) <= 255)%nat ->
  length (bc L) = Z.to_nat BC_SZ ->
  jit_cache_hit L = false ->
  live_code (jit_record L) = tokenize (text L) /\
  bc_len (jit_record L) = Z.of_nat (length (tokenize (text L))) /\
  bc_len (jit_record L) <= 85.
Proof. apply jit_record_short. Qed.

Lemma line_text_never_fills_buffer_witness :
  let L := set_text blank_line (fgets_line "quine add quine addx add") in
  (String.length (text L) <= 255)%nat /\
  length (bc L) = Z.to_nat BC_SZ /\
  jit_cache_hit L = false /\
  live_code (jit_record L) = tokenize (text L) /\
  bc_len (jit_record L) = 4.
Proof.
  intros L.
  assert (String.length (text L) <= 255)%nat as Ht
    by apply substring_length.
  assert (length (bc L) = Z.to_nat BC_SZ) as Hlen by reflexivity.
  assert (jit_cache_hit L = false) as Hmiss by (vm_compute; reflexivity).
  destruct (line_text_never_fills_buffer L Ht Hlen Hmiss) as (Hl & Hn & _).
  refine (conj Ht (conj Hlen (conj Hmiss (conj Hl _)))).
  rewrite Hn. vm_compute. reflexivity.
Defined.

(* --------------------------------------------------------------------- *)
(** ** Slots of the arena                                                 *)
(* --------------------------------------------------------------------- *)

Section Slots.

Lemma machine_eq (m m' : machine) :
  arena m = arena m' -> last_line m = last_line m' ->
  ledger m = ledger m' -> stack m = stack m' -> sp m = sp m' -> m = m'.
Proof. destruct m, m'; cbn; intros; subst; reflexivity. Qed.

Lemma jit_record_then_hit (L : line_t) : jit_cache_hit (jit_record L) = true.
Proof.
  unfold jit_cache_hit. rewrite jit_record_hash, jit_record_text.
  apply Z.eqb_refl.
Qed.

Lemma jit_record_idem (L : line_t) : jit_record (jit_record L) = jit_record L.
Proof. apply jit_record_hit, jit_record_then_hit. Qed.

Lemma jit_line_arena (i : Z) (m : machine) (k : nat) :
  arena (jit_line i m) !! k
  = (if decide (k = Z.to_nat i) then jit_record <$> arena m !! k
     else arena m !! k).
Proof.
  unfold jit_line. destruct (arena m !! Z.to_nat i) as [L|] eqn:HL;
    cbn [arena set_arena].
  - destruct (decide (k = Z.to_nat i)) as [->|Hne].
    + rewrite list_lookup_insert_eq by (eapply lookup_lt_Some, HL).
      rewrite HL. reflexivity.
    + rewrite list_lookup_insert_ne by congruence. reflexivity.
  - destruct (decide (k = Z.to_nat i)) as [->|Hne]; [|reflexivity].
    rewrite HL. reflexivity.
Qed.

Lemma jit_line_length (i : Z) (m : machine) :
  length (arena (jit_line i m)) = length (arena m).
Proof.
  unfold jit_line. destruct (arena m !! Z.to_nat i); [|reflexivity].
  cbn [arena set_arena]. apply length_insert.
Qed.

Lemma store_text_arena (i : Z) (t : string) (m : machine) (k : nat) :
  arena (store_text i t m) !! k
  = (if decide (k = Z.to_nat i)
     then (fun L => set_text L t) <$> arena m !! k
     else arena m !! k).
Proof.
  unfold store_text. destruct (arena m !! Z.to_nat i) as [L|] eqn:HL;
    cbn [arena set_arena].
  - destruct (decide (k = Z.to_nat i)) as [->|Hne].
    + rewrite list_lookup_insert_eq by (eapply lookup_lt_Some, HL).
      rewrite HL. reflexivity.
    + rewrite list_lookup_insert_ne by congruence. reflexivity.
  - destruct (decide (k = Z.to_nat i)) as [->|Hne]; [|reflexivity].
    rewrite HL. reflexivity.
Qed.

Lemma store_text_length (i : Z) (t : string) (m : machine) :
  length (arena (store_text i t m)) = length (arena m).
Proof.
  unfold store_text. destruct (arena m !! Z.to_nat i); [|reflexivity].
  cbn [arena set_arena]. apply length_insert.
Qed.

Lemma jit_loop_length (idx : list Z) (m : machine) :
  length (arena (foldl (fun acc i => jit_line i acc) m idx))
  = length (arena m).
Proof.
  revert m. induction idx as [|i idx IH]; intros m; cbn [foldl];
    [reflexivity|].
  rewrite IH. apply jit_line_length.
Qed.

Lemma patch_vm_length (m : machine) :
  length (arena (patch_vm m)) = length (arena m).
Proof. unfold patch_vm. rewrite jit_loop_length. reflexivity. Qed.

Lemma patch_vm_twice (m : machine) : patch_vm (patch_vm m) = patch_vm m.
Proof.
  destruct (patch_vm_same_stack m) as (Hs & Hk & Hl & Hn).
  destruct (patch_vm_same_stack (patch_vm m)) as (Hs' & Hk' & Hl' & Hn').
  apply machine_eq; try congruence.
  apply list_eq. intros j. rewrite (patch_vm_arena (patch_vm m)), Hn.
  rewrite (patch_vm_arena m).
  destruct (arena m !! j) as [L|]; cbn [fmap option_fmap option_map];
    [|reflexivity].
  destruct (Z.of_nat j <=? last_line m); [|reflexivity].
  rewrite jit_record_idem. reflexivity.
Qed.

End Slots.

(** X14. [jit_line] touches one slot only (the others, and the number of
    slots, are unchanged), so compiles of two slots commute: the order in
    which slots are compiled does not matter. *)
Theorem jit_line_slots_are_independent (i j : Z) (m : machine) :
  (forall k : nat, k <> Z.to_nat i -> arena (jit_line i m) !! k = arena m !! k) /\
  length (arena (jit_line i m)) = length (arena m) /\
  jit_line i (jit_line j m) = jit_line j (jit_line i m).
Proof.
  refine (conj _ (conj (jit_line_length i m) _)).
  - intros k Hk. rewrite jit_line_arena.
    destruct (decide (k = Z.to_nat i)); [contradiction | reflexivity].
  - destruct (jit_line_same_vm j m) as (Hs1 & Hk1 & Hl1 & Hn1).
    destruct (jit_line_same_vm i (jit_line j m)) as (Hs2 & Hk2 & Hl2 & Hn2).
    destruct (jit_line_same_vm i m) as (Hs3 & Hk3 & Hl3 & Hn3).
    destruct (jit_line_same_vm j (jit_line i m)) as (Hs4 & Hk4 & Hl4 & Hn4).
    apply machine_eq; try congruence.
    apply list_eq. intros k. rewrite !jit_line_arena.
    destruct (decide (k = Z.to_nat i)) as [Hi|Hi],
             (decide (k = Z.to_nat j)) as [Hj|Hj]; reflexivity.
Qed.

(** X15. [patch_vm] is idempotent: after one pass every slot up to
    [last_line] is in the cache-hit state, and a second pass changes
    nothing. *)
Theorem patch_vm_idempotent (m : machine) :
  patch_vm (patch_vm m) = patch_vm m /\
  (forall (j : nat) (L : line_t),
      Z.of_nat j <= last_line m ->
      arena (patch_vm m) !! j = Some L -> jit_cache_hit L = true).
Proof.
  split; [apply patch_vm_twice|].
  intros j L Hj HL. rewrite patch_vm_arena in HL.
  destruct (arena m !! j) as [L0|]; cbn [fmap option_fmap option_map] in HL;
    [|discriminate].
  destruct (Z.leb_spec (Z.of_nat j) (last_line m)); [|lia].
  injection HL as <-. apply jit_record_then_hit.
Qed.

Lemma patch_vm_idempotent_witness :
  let m := set_last_line (store_text 1 "quine" (store_text 0 "add" init)) 1 in
  Z.of_nat 1 <= last_line m /\
  (jit_cache_hit <$> arena m !! 1%nat) = Some false /\
  (jit_cache_hit <$> arena (patch_vm m) !! 1%nat) = Some true.
Proof.
  intros m.
  assert (Z.of_nat 1 <= last_line m) as Hj by (vm_compute; discriminate).
  refine (conj Hj (conj _ _)); [vm_compute; reflexivity|].
  destruct (arena (patch_vm m) !! 1%nat) as [L|] eqn:HL.
  - cbn [fmap option_fmap option_map]. f_equal.
    exact (proj2 (patch_vm_idempotent m) 1%nat L Hj HL).
  - exfalso. apply lookup_ge_None in HL.
    rewrite patch_vm_length in HL. vm_compute in HL. lia.
Defined.

(* --------------------------------------------------------------------- *)
(** ** The read loop                                                      *)
(* --------------------------------------------------------------------- *)

Section ReadLoop.

Lemma init_in_range : in_range init.
Proof. split; [unfold BUF_LINES; cbn; lia | apply length_replicate]. Qed.

Lemma repl_turn_arena (t : string) (m : machine) :
  arena (repl_turn t m)
  = arena (jit_line (last_line m)
             (store_text (last_line m) (fgets_line t) m)).
Proof.
  unfold repl_turn. cbn [arena set_last_line].
  apply (run_slot_arena (last_line m)).
Qed.

Lemma repl_turn_last_line (t : string) (m : machine) :
  last_line (repl_turn t m) = (last_line m + 1) mod BUF_LINES.
Proof.
  unfold repl_turn. cbn [last_line set_last_line].
  destruct (run_slot_arena (last_line m)
              (jit_line (last_line m)
                 (store_text (last_line m)
                    (substring 0 (Z.to_nat (LINE_SZ - 1)) t) m))) as [_ ->].
  destruct (jit_line_same_vm (last_line m)
              (store_text (last_line m)
                 (substring 0 (Z.to_nat (LINE_SZ - 1)) t) m))
    as (_ & _ & _ & ->).
  destruct (store_text_same_vm (last_line m)
              (substring 0 (Z.to_nat (LINE_SZ - 1)) t) m)
    as (_ & _ & _ & ->).
  reflexivity.
Qed.

Lemma step_in_range (m m' : machine) : step m m' -> in_range m -> in_range m'.
Proof.
  intros Hstep [Hl Ha]. destruct Hstep as [i t m|i m|m|i m|t m].
  - destruct (store_text_same_vm i t m) as (_ & _ & _ & E).
    split; [rewrite E; exact Hl | rewrite store_text_length; exact Ha].
  - destruct (jit_line_same_vm i m) as (_ & _ & _ & E).
    split; [rewrite E; exact Hl | rewrite jit_line_length; exact Ha].
  - destruct (patch_vm_same_stack m) as (_ & _ & _ & E).
    split; [rewrite E; exact Hl | rewrite patch_vm_length; exact Ha].
  - destruct (run_slot_arena i m) as [Ea El].
    split; [rewrite El; exact Hl | rewrite Ea; exact Ha].
  - split.
    + rewrite repl_turn_last_line. apply Z.mod_pos_bound.
      unfold BUF_LINES. lia.
    + rewrite repl_turn_arena, jit_line_length, store_text_length. exact Ha.
Qed.

Lemma reachable_in_range (m : machine) : reachable m -> in_range m.
Proof.
  induction 1 as [|m m' _ IH Hstep]; [apply init_in_range|].
  eapply step_in_range; eauto.
Qed.

Lemma in_range_slot (m : machine) (i : Z) :
  in_range m -> 0 <= i < BUF_LINES -> is_Some (arena m !! Z.to_nat i).
Proof.
  intros [_ Ha] Hi. apply lookup_lt_is_Some. rewrite Ha. lia.
Qed.

Lemma repl_turn_slots (t : string) (m : machine) :
  in_range m ->
  slot_text (repl_turn t m) (last_line m) = fgets_line t /\
  (forall k : nat, k <> Z.to_nat (last_line m) ->
                   arena (repl_turn t m) !! k = arena m !! k).
Proof.
  intros Hr.
  destruct (in_range_slot m (last_line m) Hr (proj1 Hr)) as [L HL].
  split.
  - unfold slot_text. rewrite repl_turn_arena, jit_line_arena, store_text_arena.
    destruct (decide (Z.to_nat (last_line m) = Z.to_nat (last_line m)));
      [|contradiction].
    rewrite HL. cbn [fmap option_fmap option_map].
    rewrite jit_record_text. reflexivity.
  - intros k Hk. rewrite repl_turn_arena, jit_line_arena, store_text_arena.
    destruct (decide (k = Z.to_nat (last_line m))); [contradiction|].
    reflexivity.
Qed.

Lemma repl_turns_in_range (inputs : list string) (m : machine) :
  in_range m ->
  in_range (repl_turns inputs m) /\
  last_line (repl_turns inputs m)
  = (last_line m + Z.of_nat (length inputs)) mod BUF_LINES.
Proof.
  revert m. induction inputs as [|t rest IH]; intros m Hr.
  - cbn. split; [exact Hr|]. rewrite Z.add_0_r.
    symmetry. apply Z.mod_small. exact (proj1 Hr).
  - unfold repl_turns in *. cbn [foldl length].
    destruct (IH (repl_turn t m) (step_in_range _ _ (step_repl t m) Hr))
      as [Hr' ->].
    split; [exact Hr'|].
    rewrite repl_turn_last_line, Z.add_mod_idemp_l by (unfold BUF_LINES; lia).
    f_equal. lia.
Qed.

End ReadLoop.

(** X16. In every reachable state [last_line] lies in [0, 1024) and the
    arena has its 1024 slots, so the slot that the read loop writes,
    compiles and runs, and every slot that [patch_vm] visits, exists:
    no operation indexes the arena out of bounds. *)
Theorem last_line_stays_in_arena (m : machine) :
  reachable m ->
  0 <= last_line m < BUF_LINES /\
  length (arena m) = Z.to_nat BUF_LINES /\
  (forall i, 0 <= i <= last_line m -> is_Some (arena m !! Z.to_nat i)).
Proof.
  intros Hr. pose proof (reachable_in_range m Hr) as Hin.
  destruct Hin as [Hl Ha]. refine (conj Hl (conj Ha _)).
  intros i Hi. apply in_range_slot; [split; assumption | lia].
Qed.

Lemma last_line_stays_in_arena_witness :
  let m := repl_turn "add" (patch_vm init) in
  reachable m /\ 0 <= last_line m < BUF_LINES /\
  length (arena m) = Z.to_nat BUF_LINES.
Proof.
  intros m.
  assert (reachable m) as Hr.
  { apply (reach_step (patch_vm init)); [|apply step_repl].
    apply (reach_step init); [apply reach_init | apply step_patch]. }
  destruct (last_line_stays_in_arena m Hr) as (Hl & Ha & _).
  exact (conj Hr (conj Hl Ha)).
Defined.

(** X17. The corpus wraps around: each line goes to the slot after the
    previous one, modulo 1024, and leaves the other slots alone; after
    [n] lines the next one is written at [(last_line + n) mod 1024], so
    the line that follows 1024 others overwrites the slot of the first
    of them. *)
Theorem corpus_wraps_around (inputs : list string) (t : string) (m : machine) :
  in_range m ->
  let slot := (last_line m + Z.of_nat (length inputs)) mod BUF_LINES in
  let m' := repl_turns (inputs ++ [t]) m in
  last_line (repl_turns inputs m) = slot /\
  slot_text m' slot = fgets_line t /\
  (forall k : nat, k <> Z.to_nat slot ->
                   arena m' !! k = arena (repl_turns inputs m) !! k) /\
  (Z.of_nat (length inputs) = BUF_LINES -> slot = last_line m).
Proof.
  intros Hr slot m'.
  destruct (repl_turns_in_range inputs m Hr) as [Hr' Hl].
  assert (m' = repl_turn t (repl_turns inputs m)) as ->
    by (unfold m', repl_turns; rewrite foldl_app; reflexivity).
  destruct (repl_turn_slots t (repl_turns inputs m) Hr') as [Ht Ho].
  rewrite Hl in Ht, Ho. fold slot in Ht, Ho.
  refine (conj Hl (conj Ht (conj Ho _))).
  intros Hn. unfold slot. rewrite Hn.
  rewrite <- (Z.mul_1_l BUF_LINES) at 1.
  rewrite Z.mod_add by (unfold BUF_LINES; lia).
  apply Z.mod_small. exact (proj1 Hr).
Qed.

Lemma corpus_wraps_around_witness :
  let inputs := replicate 1024 "quine"%string in
  let m := repl_turn "add" init in
  in_range m /\
  slot_text (repl_turns (inputs ++ ["add add"%string]) m) (last_line m)
  = fgets_line "add add".
Proof.
  intros inputs m.
  assert (in_range m) as Hr
    by (apply (step_in_range init); [apply step_repl | apply init_in_range]).
  destruct (corpus_wraps_around inputs "add add" m Hr) as (_ & Ht & _ & Hs).
  split; [exact Hr|].
  rewrite <- (Hs eq_refl). exact Ht.
Defined.

Section Reports.

Lemma store_text_slot (t : string) (m : machine) :
  in_range m ->
  slot_text (store_text (last_line m) t m)
            (last_line (store_text (last_line m) t m)) = t.
Proof.
  intros Hr.
  destruct (store_text_same_vm (last_line m) t m) as (_ & _ & _ & ->).
  destruct (in_range_slot m (last_line m) Hr (proj1 Hr)) as [L HL].
  unfold slot_text. rewrite store_text_arena.
  destruct (decide (Z.to_nat (last_line m) = Z.to_nat (last_line m)));
    [|contradiction].
  rewrite HL. reflexivity.
Qed.

(** The machine after the turn of a line that is not [exit], as the loop
    of [repl] computes it, is [repl_turn]. *)
Lemma repl_body_is_turn (t : string) (m : machine) :
  let m1 := store_text (last_line m) (fgets_line t) m in
  let m2 := jit_line (last_line m1) m1 in
  let m3 := run_slot (last_line m2) m2 in
  set_last_line m3 ((last_line m3 + 1) mod BUF_LINES) = repl_turn t m /\
  (reachable m -> reachable m3).
Proof.
  intros m1 m2 m3.
  assert (last_line m1 = last_line m) as E1
    by (destruct (store_text_same_vm (last_line m) (fgets_line t) m)
          as (_ & _ & _ & E); exact E).
  assert (last_line m2 = last_line m) as E2.
  { destruct (jit_line_same_vm (last_line m1) m1) as (_ & _ & _ & E).
    unfold m2. rewrite E. exact E1. }
  split.
  - subst m3. rewrite E2. subst m2. rewrite E1. reflexivity.
  - intros Hr. apply (reach_step m2); [|apply step_run].
    apply (reach_step m1); [|apply step_jit].
    apply (reach_step m); [exact Hr | apply step_store].
Qed.

Lemma repl_reports (inputs : list string) :
  forall m : machine,
    reachable m ->
    length (snd (repl inputs m)) = length (before_exit inputs) /\
    Forall (fun r => fst r = 0%float) (snd (repl inputs m)) /\
    (before_exit inputs = inputs -> fst (repl inputs m) = repl_turns inputs m).
Proof.
  induction inputs as [|t rest IH]; intros m Hr.
  - cbn. auto.
  - cbn [repl before_exit].
    rewrite (store_text_slot (fgets_line t) m (reachable_in_range m Hr)).
    destruct (strncmp (fgets_line t) "exit" 4 =? 0) eqn:Hexit.
    + cbn. refine (conj eq_refl (conj (Forall_nil_2 _) _)). discriminate.
    + destruct (repl_body_is_turn t m) as [Eturn Hreach].
      cbv zeta in Eturn, Hreach. rewrite Eturn.
      specialize (Hreach Hr).
      destruct (reachable_empty_stack _ Hreach) as [Hsp Hst].
      destruct (IH (repl_turn t m)
                  (reach_step m _ Hr (step_repl t m))) as (Hn & Hz & Hf).
      destruct (repl rest (repl_turn t m)) as [mf rs].
      cbn [fst snd length] in *.
      refine (conj _ (conj _ _)).
      * rewrite Hn. reflexivity.
      * constructor; [|exact Hz].
        unfold repl_report. cbn [fst]. rewrite Hsp, Hst. reflexivity.
      * intros E. injection E as E. unfold repl_turns in *. cbn [foldl].
        apply Hf, E.
Qed.

End Reports.

(** X18. Whatever is typed, the read loop prints [top=0.000] after every
    line: in every state reachable from the initial one the value it
    decodes for the top of the stack is 0.  It prints one report for each
    line before the first line that starts with [exit] and none from
    there on, and without such a line its effect is that of the turns
    taken one after the other. *)
Theorem repl_always_reports_zero (inputs : list string) (m : machine) :
  reachable m ->
  length (snd (repl inputs m)) = length (before_exit inputs) /\
  Forall (fun r => fst r = 0%float) (snd (repl inputs m)) /\
  (before_exit inputs = inputs -> fst (repl inputs m) = repl_turns inputs m).
Proof. apply repl_reports. Qed.

Lemma repl_always_reports_zero_witness :
  let inputs := ["quine add"; "quine quine"; "exit now"; "quine"]%string in
  reachable init /\
  length (snd (repl inputs init)) = 2%nat /\
  Forall (fun r => fst r = 0%float) (snd (repl inputs init)).
Proof.
  intros inputs.
  destruct (repl_always_reports_zero inputs init reach_init) as (Hn & Hz & _).
  exact (conj reach_init (conj Hn Hz)).
Defined.

(* --------------------------------------------------------------------- *)
(** ** The LSP loop                                                       *)
(* --------------------------------------------------------------------- *)

Section LSP.

Lemma lsp_loop_state (bufs : list string) :
  forall m : machine,
    fst (lsp_loop bufs m)
    = (if existsb (fun b => strstr b tag_didSave) bufs
       then patch_vm m else m) /\
    snd (lsp_loop bufs m)
    = replicate (length (List.filter (fun b => strstr b tag_completion) bufs))
                (mk_reply 36 lsp_resp).
Proof.
  induction bufs as [|buf rest IH]; intros m; [split; reflexivity|].
  cbn [lsp_loop existsb List.filter]. unfold lsp_turn.
  destruct (IH (if strstr buf tag_didSave then patch_vm m else m))
    as [Hs Ho].
  destruct (lsp_loop rest (if strstr buf tag_didSave then patch_vm m else m))
    as [m2 outs].
  cbn [fst snd] in *. subst m2 outs. split.
  - destruct (strstr buf tag_didSave); cbn [orb]; [|reflexivity].
    destruct (existsb _ rest); [apply patch_vm_twice | reflexivity].
  - destruct (strstr buf tag_completion); reflexivity.
Qed.

End LSP.

(** X19. The LSP loop has two effects only.  On the machine: if some
    buffer contains [textDocument/didSave] the result is one [patch_vm]
    of the starting machine (any number of save notifications amounts to
    one), otherwise the machine is untouched; in both cases stack and
    ledger are as they were, no bytecode being executed.  On the output:
    one reply, with [Content-Length] 36 and the fixed JSON body, for each
    buffer that contains [textDocument/completion]. *)
Theorem lsp_loop_effect (bufs : list string) (m : machine) :
  fst (lsp_loop bufs m)
  = (if existsb (fun b => strstr b tag_didSave) bufs then patch_vm m else m) /\
  stack (fst (lsp_loop bufs m)) = stack m /\
  ledger (fst (lsp_loop bufs m)) = ledger m /\
  snd (lsp_loop bufs m)
  = replicate (length (List.filter (fun b => strstr b tag_completion) bufs))
              (mk_reply 36 lsp_resp).
Proof.
  destruct (lsp_loop_state bufs m) as [Hs Ho].
  refine (conj Hs (conj _ (conj _ Ho))); rewrite Hs;
    destruct (existsb _ bufs); try reflexivity;
    apply patch_vm_same_stack.
Qed.

(* --------------------------------------------------------------------- *)
(** ** A line typed at the read loop, end to end                          *)
(* --------------------------------------------------------------------- *)

Section EndToEnd.

Lemma reachable_ledger_range (m : machine) :
  reachable m -> 0 <= landauer (ledger m) < 2 ^ 64.
Proof.
  assert (forall s, sp s = 0 -> 0 <= landauer (ledger s) < 2 ^ 64 ->
            forall i, 0 <= landauer (ledger (run_slot i s)) < 2 ^ 64) as Hrun.
  { intros s Hs Hl i. unfold run_slot.
    destruct (arena s !! Z.to_nat i) as [L|]; [|exact Hl].
    unfold vm_run_line.
    destruct (vm_exec_from_empty (live_code L) s ltac:(lia)) as [-> _].
    cbn [ledger set_ledger]. rewrite iter_ledger_tick by exact Hl.
    unfold wrap64. apply Z.mod_pos_bound. lia. }
  induction 1 as [|m m' Hr IH Hstep]; [cbn; lia|].
  destruct (reachable_empty_stack m Hr) as [Hsp _].
  destruct Hstep as [i t m|i m|m|i m|t m].
  - destruct (store_text_same_vm i t m) as (_ & _ & -> & _). exact IH.
  - destruct (jit_line_same_vm i m) as (_ & _ & -> & _). exact IH.
  - destruct (patch_vm_same_stack m) as (_ & _ & -> & _). exact IH.
  - apply Hrun; assumption.
  - unfold repl_turn. cbn [ledger set_last_line].
    set (t' := substring 0 (Z.to_nat (LINE_SZ - 1)) t).
    destruct (jit_line_same_vm (last_line m)
                (store_text (last_line m) t' m)) as (Es & _ & El & _).
    destruct (store_text_same_vm (last_line m) t' m) as (Es' & _ & El' & _).
    apply Hrun; [congruence | rewrite El, El'; exact IH].
Qed.

End EndToEnd.

(** X20. A line typed at the read loop, when it is compiled (its hash is
    not the one stored in the slot), costs exactly the number of [quine]
    keywords it has before its first [add] or unrecognised token: the
    ledger advances by that number, and the stack stays empty. *)
Theorem repl_turn_costs_leading_quines
  (t : string) (m : machine) (L : line_t) :
  reachable m ->
  arena m !! Z.to_nat (last_line m) = Some L ->
  jit_cache_hit (set_text L (fgets_line t)) = false ->
  landauer (ledger (repl_turn t m))
  = wrap64 (landauer (ledger m)
            + Z.of_nat (leading_moments (tokenize (fgets_line t)))) /\
  sp (repl_turn t m) = 0 /\
  stack (repl_turn t m) = stack m.
Proof.
  intros Hr HL Hmiss.
  destruct (reachable_empty_stack m Hr) as [Hsp Hst].
  pose proof (reachable_ledger_range m Hr) as Hled.
  pose proof (Forall_lookup_1 _ _ _ _ (reachable_wf m Hr) HL) as [Hlen _].
  set (n := last_line m). set (t' := fgets_line t).
  set (m2 := jit_line n (store_text n t' m)).
  assert (same_vm m m2) as (Es & Ek & El & En).
  { eapply same_vm_trans; [apply (store_text_same_vm n t')|].
    apply jit_line_same_vm. }
  assert (arena m2 !! Z.to_nat n = Some (jit_record (set_text L t'))) as HL2.
  { unfold m2. rewrite jit_line_arena, store_text_arena.
    destruct (decide (Z.to_nat n = Z.to_nat n)); [|contradiction].
    fold n in HL. rewrite HL. reflexivity. }
  assert (live_code (jit_record (set_text L t')) = tokenize t') as Hcode.
  { apply (jit_record_short (set_text L t'));
      [apply substring_length | exact Hlen | exact Hmiss]. }
  assert (repl_turn t m
          = set_last_line (vm_run_line (jit_record (set_text L t')) m2)
              ((last_line (vm_run_line (jit_record (set_text L t')) m2) + 1)
               mod BUF_LINES)) as ->.
  { unfold repl_turn. fold n. fold (fgets_line t). fold t'. fold m2.
    unfold run_slot. rewrite HL2. reflexivity. }
  cbn [ledger sp stack set_last_line]. unfold vm_run_line.
  destruct (vm_exec_from_empty (live_code (jit_record (set_text L t'))) m2
              ltac:(lia)) as [-> _].
  cbn [ledger sp stack set_ledger]. rewrite Hcode.
  rewrite iter_ledger_tick by (rewrite El; exact Hled).
  rewrite El, Es, Ek. auto.
Qed.

Lemma repl_turn_costs_leading_quines_witness :
  let t := "quine quine add quine"%string in
  reachable init /\
  arena init !! Z.to_nat (last_line init) = Some blank_line /\
  jit_cache_hit (set_text blank_line (fgets_line t)) = false /\
  landauer (ledger (repl_turn t init)) = 2.
Proof.
  intros t.
  assert (arena init !! Z.to_nat (last_line init) = Some blank_line) as HL
    by reflexivity.
  assert (jit_cache_hit (set_text blank_line (fgets_line t)) = false) as Hm
    by (vm_compute; reflexivity).
  destruct (repl_turn_costs_leading_quines t init blank_line reach_init HL Hm)
    as (E & _ & _).
  refine (conj reach_init (conj HL (conj Hm _))).
  rewrite E. vm_compute. reflexivity.
Defined.

(* --------------------------------------------------------------------- *)
(** ** Whole-corpus recompilation                                         *)
(* --------------------------------------------------------------------- *)

Section Recompile.



End Recompile.



